(** * qiskit-nature: the VQE/UVCC solver factory and the electronic-structure
      regression check

    A shallow embedding of

    - [qiskit_nature/second_q/algorithms/ground_state_solvers/
       minimum_eigensolver_factories/vqe_uvcc_factory.py],
    - [test/second_q/problems/test_electronic_structure_problem.py].

    Python objects live in a store indexed by object identity; every method
    is a function in a state-and-exception monad over that store, so that
    aliasing (the shared solver, the ansatz mutated in place) is visible in
    the statements. *)

From stdpp Require Import gmap strings list fin_maps.

(** ** Python values, exceptions and the store monad *)

(** Object identity ([id(x)] in Python). *)
Abbreviation loc := positive.

Inductive exn : Set :=
| TypeError
| AttributeError
| QiskitNatureError.

Inductive result (A : Type) : Type :=
| Ok (a : A)
| Raise (e : exn).
Arguments Ok {A} a.
Arguments Raise {A} e.

Section qiskit_nature.

(** Opaque collaborators: the qubit converter handed through to the ansatz,
    the keyword options forwarded to [VQE], and NumPy arrays. *)
Context {QubitConverter kwargs ndarray : Type}.

(** [basis.num_modals_per_mode]: a single [int] or a list of per-mode
    counts. *)
Inductive modal_layout : Type :=
| Scalar (n : Z)
| Seq (l : list Z).

Record VibrationalBasis : Type := { num_modals_per_mode : modal_layout }.

(** The problem exposes [basis]; [num_modes] is the number of vibrational
    modes of the problem, which [get_solver] never reads. *)
Record VibrationalStructureProblem : Type :=
  { basis : VibrationalBasis; num_modes : nat }.

(** Circuits: the [VSCF] reference state built from a modal layout, or any
    other [QuantumCircuit] supplied by the caller. *)
Inductive circuit : Type :=
| VSCF (num_modals : list Z)
| QuantumCircuit (name : string).

Inductive uvcc_class : Set := UVCC | UVCCSD.

(** The three fields of a [UVCC] instance that [get_solver] assigns, and
    its class, which it does not. *)
Record ansatz : Type :=
  { cls : uvcc_class;
    qubit_converter : option QubitConverter;
    num_modals : option (list Z);
    initial_state : option loc }.

Inductive ip_class : Type :=
| VSCFInitialPoint
| OtherInitialPoint (name : string).

(** An [InitialPoint] strategy object with its [ansatz] back-reference. *)
Record strategy : Type :=
  { ip_cls : ip_class; ip_ansatz : option loc }.

(** The fields of the [VQE] instance the factory writes. *)
Record vqe : Type :=
  { vqe_kwargs : kwargs;
    vqe_ansatz : option loc;
    vqe_initial_point : option ndarray }.

(** [Optional[Union[np.ndarray, InitialPoint]]] *)
Inductive ip_val : Type :=
| PyNone
| NdArray (a : ndarray)
| InitialPointRef (s : loc).

(** The instance attributes of a [VQEUVCCFactory]. *)
Record factory : Type :=
  { _initial_state : option loc;
    _initial_point : ip_val;
    _ansatz : option loc;
    _vqe : loc }.

Inductive obj : Type :=
| OFactory (f : factory)
| OVQE (v : vqe)
| OAnsatz (a : ansatz)
| OCircuit (c : circuit)
| OInitialPoint (s : strategy).

Abbreviation heap := (gmap loc obj).

(** Computations on the store: the store is kept when an exception is
    raised, as in Python. *)
Definition M (A : Type) : Type := heap → result A * heap.

Definition ret {A} (a : A) : M A := λ h, (Ok a, h).
Definition raise {A} (e : exn) : M A := λ h, (Raise e, h).
Definition bind {A B} (m : M A) (k : A → M B) : M B :=
  λ h, match m h with
       | (Ok a, h') => k a h'
       | (Raise e, h') => (Raise e, h')
       end.

Notation "x <- m ;; k" := (bind m (λ x, k))
  (at level 100, m at next level, right associativity).
Notation "m ;;; k" := (bind m (λ _, k))
  (at level 100, right associativity).

(** Object creation: a new identity, distinct from every live object. *)
Definition alloc (o : obj) : M loc :=
  λ h, let l := fresh (dom h) in (Ok l, <[l := o]> h).

(** Typed attribute access; an object of another class has no such
    attribute. *)
Definition as_factory (l : loc) : M factory :=
  λ h, match h !! l with
       | Some (OFactory f) => (Ok f, h)
       | _ => (Raise AttributeError, h)
       end.

Definition as_vqe (l : loc) : M vqe :=
  λ h, match h !! l with
       | Some (OVQE v) => (Ok v, h)
       | _ => (Raise AttributeError, h)
       end.

Definition as_ansatz (l : loc) : M ansatz :=
  λ h, match h !! l with
       | Some (OAnsatz a) => (Ok a, h)
       | _ => (Raise AttributeError, h)
       end.

Definition as_strategy (l : loc) : M strategy :=
  λ h, match h !! l with
       | Some (OInitialPoint s) => (Ok s, h)
       | _ => (Raise AttributeError, h)
       end.

Definition store (l : loc) (o : obj) : M unit :=
  λ h, (Ok tt, <[l := o]> h).

(** ** Collaborators outside the two source files *)

(** The [VQE] constructor of the external [qiskit.algorithms] package and
    its class-level capability query. *)
Variable VQE : kwargs → vqe.
Variable VQE_supports_aux_operators : bool.

(** What an initial-point strategy sees of the ansatz it is bound to: the
    ansatz' fields, with the initial state followed to the object it names. *)
Record ansatz_view : Type :=
  { view_cls : uvcc_class;
    view_qubit_converter : option QubitConverter;
    view_num_modals : option (list Z);
    view_initial_state : option obj }.

Definition view (h : heap) (a : ansatz) : ansatz_view :=
  {| view_cls := cls a;
     view_qubit_converter := qubit_converter a;
     view_num_modals := num_modals a;
     view_initial_state := initial_state a ≫= (h !!.) |}.

(** Modelled from the spec: the strategy classes of
    [qiskit_nature.second_q.algorithms.initial_points] are not among the
    source files. "A strategy object that computes a vector from the
    resolved ansatz (mutated in place with an [ansatz] back-reference, then
    queried for its numeric form)": the vector is a function of the
    strategy's class and of the ansatz it is bound to. *)
Variable compute : ip_class → ansatz_view → ndarray.

(** Modelled from the spec: [VSCFInitialPoint()], "a default reference-state
    initial-point strategy", not yet bound to an ansatz. *)
Definition new_VSCFInitialPoint : strategy :=
  {| ip_cls := VSCFInitialPoint; ip_ansatz := None |}.

(** Modelled from the spec: [UVCCSD()], "a default double-excitation
    ansatz", whose mapper, modal layout and initial state are unset until
    the factory assigns them. *)
Definition new_UVCCSD : ansatz :=
  {| cls := UVCCSD; qubit_converter := None; num_modals := None;
     initial_state := None |}.

(** [strategy.ansatz = ansatz] *)
Definition set_ip_ansatz (s a : loc) : M unit :=
  x <- as_strategy s ;;
  store s (OInitialPoint {| ip_cls := ip_cls x; ip_ansatz := Some a |}).

(** [strategy.to_numpy_array()] *)
Definition to_numpy_array (s : loc) : M ndarray :=
  x <- as_strategy s ;;
  match ip_ansatz x with
  | None => raise QiskitNatureError
  | Some a => y <- as_ansatz a ;; λ h, (Ok (compute (ip_cls x) (view h y)), h)
  end.

(** Attribute assignments on the ansatz and on the solver. *)
Definition set_qubit_converter (a : loc) (qc : QubitConverter) : M unit :=
  x <- as_ansatz a ;;
  store a (OAnsatz {| cls := cls x; qubit_converter := Some qc;
                      num_modals := num_modals x;
                      initial_state := initial_state x |}).

Definition set_num_modals (a : loc) (n : list Z) : M unit :=
  x <- as_ansatz a ;;
  store a (OAnsatz {| cls := cls x; qubit_converter := qubit_converter x;
                      num_modals := Some n;
                      initial_state := initial_state x |}).

Definition set_initial_state (a : loc) (c : loc) : M unit :=
  x <- as_ansatz a ;;
  store a (OAnsatz {| cls := cls x; qubit_converter := qubit_converter x;
                      num_modals := num_modals x;
                      initial_state := Some c |}).

Definition set_vqe_initial_point (s : loc) (p : option ndarray) : M unit :=
  x <- as_vqe s ;;
  store s (OVQE {| vqe_kwargs := vqe_kwargs x; vqe_ansatz := vqe_ansatz x;
                   vqe_initial_point := p |}).

Definition set_vqe_ansatz (s : loc) (a : loc) : M unit :=
  x <- as_vqe s ;;
  store s (OVQE {| vqe_kwargs := vqe_kwargs x; vqe_ansatz := Some a;
                   vqe_initial_point := vqe_initial_point x |}).

(** [len(x)]: an [int] has no length. *)
Definition py_len (x : modal_layout) : M nat :=
  match x with
  | Scalar _ => raise TypeError
  | Seq l => ret (length l)
  end.

(** ** [VQEUVCCFactory] *)

(** [VQEUVCCFactory(initial_point, ansatz, initial_state, **kwargs)]: the
    body of [__init__], in its order; the new factory object is entered in
    the store once its attributes are known (no reference to it escapes
    before). *)
Definition __init__ (initial_point : ip_val) (ansatz : option loc)
    (initial_state : option loc) (kw : kwargs) : M loc :=
  ip <- match initial_point with
        | PyNone => s <- alloc (OInitialPoint new_VSCFInitialPoint) ;;
                    ret (InitialPointRef s)
        | _ => ret initial_point
        end ;;
  v <- alloc (OVQE (VQE kw)) ;;
  alloc (OFactory {| _initial_state := initial_state;
                     _initial_point := ip;
                     _ansatz := ansatz;
                     _vqe := v |}).

(** The properties and their setters. *)
Definition get_ansatz (self : loc) : M (option loc) :=
  f <- as_factory self ;; ret (_ansatz f).

Definition set_ansatz (self : loc) (a : option loc) : M unit :=
  f <- as_factory self ;;
  store self (OFactory {| _initial_state := _initial_state f;
                          _initial_point := _initial_point f;
                          _ansatz := a;
                          _vqe := _vqe f |}).

Definition get_initial_state (self : loc) : M (option loc) :=
  f <- as_factory self ;; ret (_initial_state f).

Definition set_factory_initial_state (self : loc) (c : option loc) : M unit :=
  f <- as_factory self ;;
  store self (OFactory {| _initial_state := c;
                          _initial_point := _initial_point f;
                          _ansatz := _ansatz f;
                          _vqe := _vqe f |}).

Definition get_initial_point (self : loc) : M ip_val :=
  f <- as_factory self ;; ret (_initial_point f).

Definition set_initial_point (self : loc) (p : ip_val) : M unit :=
  f <- as_factory self ;;
  store self (OFactory {| _initial_state := _initial_state f;
                          _initial_point := p;
                          _ansatz := _ansatz f;
                          _vqe := _vqe f |}).

Definition minimum_eigensolver (self : loc) : M loc :=
  f <- as_factory self ;; ret (_vqe f).

(** Lines 153-158: the modal layout read from the problem. *)
Definition resolve_num_modals (problem : VibrationalStructureProblem)
  : M (list Z) :=
  let basis := basis problem in
  let num_modals := num_modals_per_mode basis in
  num_modes <- py_len num_modals ;;
  match num_modals with
  | Scalar n => ret (replicate num_modes n)
  | Seq l => ret l
  end.

(** Lines 171-175: the initial point handed to the solver. The source reads
    the property [self.initial_point] anew at each use; nothing in between
    assigns it, so it is read once here. *)
Definition resolve_initial_point (self : loc) (ansatz : loc)
  : M (option ndarray) :=
  ip <- get_initial_point self ;;
  match ip with
  | InitialPointRef s =>
      set_ip_ansatz s ansatz ;;;
      p <- to_numpy_array s ;;
      ret (Some p)
  | NdArray p => ret (Some p)
  | PyNone => ret None
  end.

Definition get_solver (self : loc) (problem : VibrationalStructureProblem)
    (qubit_converter : QubitConverter) : M loc :=
  num_modals <- resolve_num_modals problem ;;
  initial_state <- get_initial_state self ;;
  initial_state <- match initial_state with
                   | None => alloc (OCircuit (VSCF num_modals))
                   | Some c => ret c
                   end ;;
  f <- as_factory self ;;
  ansatz <- match _ansatz f with
            | None => alloc (OAnsatz new_UVCCSD)
            | Some a => ret a
            end ;;
  set_qubit_converter ansatz qubit_converter ;;;
  set_num_modals ansatz num_modals ;;;
  set_initial_state ansatz initial_state ;;;
  initial_point <- resolve_initial_point self ansatz ;;
  s <- minimum_eigensolver self ;;
  set_vqe_initial_point s initial_point ;;;
  s <- minimum_eigensolver self ;;
  set_vqe_ansatz s ansatz ;;;
  minimum_eigensolver self.

Definition supports_aux_operators (self : loc) : M bool :=
  ret VQE_supports_aux_operators.



(** ** The regression check of [test_electronic_structure_problem.py] *)

(** Collaborators of the test: the coefficients of operator terms and
    NumPy's [abs] and [isclose] on them, the Python objects found in the
    dictionary of auxiliary operators with the [isinstance] test against
    [SecondQuantizedOp], the PySCF driver, the problem's [second_q_ops], the
    operator's [to_list], the active-space transformer and the fixture
    reader. *)
Context {coefficient magnitude py_object SecondQuantizedOp
         ElectronicStructureProblem : Type}.
Variable np_abs : coefficient → magnitude.
Variable np_isclose : magnitude → magnitude → bool.
Variable isinstance_SecondQuantizedOp : py_object → bool.
Variable get_resource_path : string → string → string.
Variable read_expected_file : string → list (string * coefficient).
Variable PySCFDriver_run : string → ElectronicStructureProblem.
Variable ActiveSpaceTransformer_transform :
  nat → nat → ElectronicStructureProblem → ElectronicStructureProblem.
Variable second_q_ops :
  ElectronicStructureProblem → SecondQuantizedOp * gmap string py_object.
Variable to_list : SecondQuantizedOp → list (string * coefficient).

(** [s[0] == t[0] and np.isclose(np.abs(s[1]), np.abs(t[1]))] *)
Definition term_agrees (s t : string * coefficient) : bool :=
  bool_decide (s.1 = t.1) && np_isclose (np_abs s.2) (np_abs t.2).

(** [all(... for s, t in zip(expected_fermionic_op, terms))] *)
Definition components_agree (expected_fermionic_op terms
    : list (string * coefficient)) : bool :=
  forallb (λ st, term_agrees st.1 st.2) (zip expected_fermionic_op terms).

(** The three [subTest] blocks that close both tests (lines 47-56 and
    74-83), each with its message and whether its assertion holds. *)
Definition subtests (expected_num_of_sec_quant_ops : nat)
    (expected_fermionic_op : list (string * coefficient))
    (electr_sec_quant_op : SecondQuantizedOp)
    (second_quantized_ops : gmap string py_object) : list (string * bool) :=
  [ ("Check expected length of the list of second quantized operators.",
     bool_decide (size second_quantized_ops = expected_num_of_sec_quant_ops));
    ("Check types in the list of second quantized operators.",
     forallb isinstance_SecondQuantizedOp
       ((map_to_list second_quantized_ops).*2));
    ("Check components of electronic second quantized operator.",
     components_agree expected_fermionic_op (to_list electr_sec_quant_op)) ].

Definition test_second_q_ops_without_transformers : list (string * bool) :=
  let expected_num_of_sec_quant_ops := 6 in
  let expected_fermionic_op_path :=
    get_resource_path "H2_631g_ferm_op_two_ints"
                      "second_q/problems/resources" in
  let expected_fermionic_op := read_expected_file expected_fermionic_op_path in
  let electronic_structure_problem := PySCFDriver_run "631g" in
  let '(electr_sec_quant_op, second_quantized_ops) :=
    second_q_ops electronic_structure_problem in
  subtests expected_num_of_sec_quant_ops expected_fermionic_op
           electr_sec_quant_op second_quantized_ops.

Definition test_second_q_ops_with_active_space : list (string * bool) :=
  let expected_num_of_sec_quant_ops := 6 in
  let expected_fermionic_op_path :=
    get_resource_path "H2_631g_ferm_op_active_space"
                      "second_q/problems/resources" in
  let expected_fermionic_op := read_expected_file expected_fermionic_op_path in
  let electronic_structure_problem :=
    ActiveSpaceTransformer_transform 2 2 (PySCFDriver_run "631g") in
  let '(electr_sec_quant_op, second_quantized_ops) :=
    second_q_ops electronic_structure_problem in
  subtests expected_num_of_sec_quant_ops expected_fermionic_op
           electr_sec_quant_op second_quantized_ops.

(** A test passes when none of its sub-tests fails. *)
Definition passes (t : list (string * bool)) : bool := forallb snd t.

(** ** Observations on the store *)

Definition is_factory (o : option obj) : bool :=
  match o with Some (OFactory _) => true | _ => false end.
Definition is_vqe (o : option obj) : bool :=
  match o with Some (OVQE _) => true | _ => false end.
Definition is_ansatz (o : option obj) : bool :=
  match o with Some (OAnsatz _) => true | _ => false end.
Definition is_circuit (o : option obj) : bool :=
  match o with Some (OCircuit _) => true | _ => false end.
Definition is_strategy (o : option obj) : bool :=
  match o with Some (OInitialPoint _) => true | _ => false end.

(** The attributes of the factory at [self] hold objects of their declared
    classes ([Optional[UVCC]], [Optional[QuantumCircuit]],
    [Optional[Union[np.ndarray, InitialPoint]]], [VQE]). *)
Definition well_typed (h : heap) (self : loc) : bool :=
  match h !! self with
  | Some (OFactory f) =>
      is_vqe (h !! _vqe f)
      && from_option (λ a, is_ansatz (h !! a)) true (_ansatz f)
      && from_option (λ c, is_circuit (h !! c)) true (_initial_state f)
      && match _initial_point f with
         | InitialPointRef s => is_strategy (h !! s)
         | _ => true
         end
  | _ => false
  end.

Definition factory_at (h : heap) (self : loc) : option factory :=
  match h !! self with Some (OFactory f) => Some f | _ => None end.
Definition vqe_at (h : heap) (s : loc) : option vqe :=
  match h !! s with Some (OVQE v) => Some v | _ => None end.
Definition ansatz_at (h : heap) (a : loc) : option ansatz :=
  match h !! a with Some (OAnsatz x) => Some x | _ => None end.
Definition strategy_at (h : heap) (s : loc) : option strategy :=
  match h !! s with Some (OInitialPoint x) => Some x | _ => None end.

(** [solver.ansatz] and [solver.initial_point] of the solver at [s]. *)
Definition solver_ansatz (h : heap) (s : loc) : option loc :=
  vqe_at h s ≫= vqe_ansatz.
Definition solver_initial_point (h : heap) (s : loc)
  : option (option ndarray) :=
  vqe_initial_point <$> vqe_at h s.

(** The configuration of the ansatz installed on the solver at [s]. *)
Definition solver_ansatz_view (h : heap) (s : loc) : option ansatz_view :=
  a ← solver_ansatz h s; x ← ansatz_at h a; Some (view h x).

(** [m] run in [h] returns [a] and leaves the store [h']. *)
Definition returns {A} (m : M A) (h : heap) (a : A) (h' : heap) : Prop :=
  m h = (Ok a, h').

(** What no call of [get_solver] does to the store: factory objects keep
    their attributes, and the solver objects are the same ones, with the
    options they were constructed from. *)
Definition keeps (h h' : heap) : Prop :=
  (∀ l f, h !! l = Some (OFactory f) → h' !! l = Some (OFactory f)) ∧
  (∀ l, is_vqe (h' !! l) = is_vqe (h !! l)) ∧
  (∀ l v v', h !! l = Some (OVQE v) → h' !! l = Some (OVQE v') →
             vqe_kwargs v' = vqe_kwargs v).

(** The initial point [get_solver] hands to the solver, given the stored
    [initial_point] and the configuration [y] of the resolved ansatz. *)
Definition resolved_point (h : heap) (ip : ip_val) (y : ansatz_view)
  : option ndarray :=
  match ip with
  | PyNone => None
  | NdArray p => Some p
  | InitialPointRef s => (λ x, compute (ip_cls x) y) <$> strategy_at h s
  end.

Definition preserves {A} (m : M A) : Prop :=
  ∀ h r h', m h = (r, h') → keeps h h'.


(** Whenever [m] returns, its value and final store satisfy [P]. *)
Definition yields {A} (P : A → heap → Prop) (m : M A) : Prop :=
  ∀ h a h', m h = (Ok a, h') → P a h'.

(** ** Running the monad *)

Lemma returns_ret {A} (a : A) h : returns (ret a) h a h.
Proof. reflexivity. Qed.

Lemma returns_bind {A B} (m : M A) (k : A → M B) h a h1 b h2 :
  returns m h a h1 → returns (k a) h1 b h2 → returns (bind m k) h b h2.
Proof. unfold returns, bind. by intros ->. Qed.

Lemma raises_bind {A B} (m : M A) (k : A → M B) h e h1 :
  m h = (Raise e, h1) → bind m k h = (Raise e, h1).
Proof. unfold bind. by intros ->. Qed.

Lemma fresh_lookup (h : heap) : h !! fresh (dom h) = None.
Proof. apply not_elem_of_dom, is_fresh. Qed.

Lemma returns_alloc o h :
  returns (alloc o) h (fresh (dom h)) (<[fresh (dom h) := o]> h).
Proof. reflexivity. Qed.

Lemma alloc_spec o h :
  ∃ l, h !! l = None ∧ returns (alloc o) h l (<[l := o]> h).
Proof. exists (fresh (dom h)). split; [apply fresh_lookup | reflexivity]. Qed.

Lemma returns_store l o h : returns (store l o) h tt (<[l := o]> h).
Proof. reflexivity. Qed.

Lemma returns_as_factory l f h :
  h !! l = Some (OFactory f) → returns (as_factory l) h f h.
Proof. unfold returns, as_factory. by intros ->. Qed.

Lemma returns_as_vqe l v h :
  h !! l = Some (OVQE v) → returns (as_vqe l) h v h.
Proof. unfold returns, as_vqe. by intros ->. Qed.

Lemma returns_as_ansatz l x h :
  h !! l = Some (OAnsatz x) → returns (as_ansatz l) h x h.
Proof. unfold returns, as_ansatz. by intros ->. Qed.

Lemma returns_as_strategy l x h :
  h !! l = Some (OInitialPoint x) → returns (as_strategy l) h x h.
Proof. unfold returns, as_strategy. by intros ->. Qed.

(** ** The frame of [get_solver] *)

Lemma keeps_refl h : keeps h h.
Proof. repeat split; auto. congruence. Qed.

Lemma keeps_trans h1 h2 h3 : keeps h1 h2 → keeps h2 h3 → keeps h1 h3.
Proof.
  intros (F1 & V1 & K1) (F2 & V2 & K2). repeat split.
  - auto.
  - intros l. by rewrite V2.
  - intros l v v'' H1 H3.
    assert (is_vqe (h2 !! l) = true) as H2 by (by rewrite V1, H1).
    destruct (h2 !! l) as [[]|] eqn:E; try discriminate.
    rewrite (K2 _ _ _ E H3). eauto.
Qed.

(** Writing over an object that is neither a factory nor a solver, with
    another such object. *)
Lemma keeps_insert h l o :
  is_factory (h !! l) = false → is_vqe (h !! l) = false →
  is_vqe (Some o) = false →
  keeps h (<[l := o]> h).
Proof.
  intros Hf Hv Ho. repeat split.
  - intros l' f H. destruct (decide (l = l')) as [->|].
    + by rewrite H in Hf.
    + by rewrite lookup_insert_ne.
  - intros l'. destruct (decide (l = l')) as [->|].
    + by rewrite lookup_insert_eq, Ho, Hv.
    + by rewrite lookup_insert_ne.
  - intros l' v v' H. destruct (decide (l = l')) as [->|].
    + by rewrite H in Hv.
    + rewrite lookup_insert_ne by done. congruence.
Qed.

(** Writing a solver over itself, with the options it was built from. *)
Lemma keeps_insert_vqe h l v v' :
  h !! l = Some (OVQE v) → vqe_kwargs v' = vqe_kwargs v →
  keeps h (<[l := OVQE v']> h).
Proof.
  intros Hl Hk. repeat split.
  - intros l' f H. destruct (decide (l = l')) as [->|].
    + congruence.
    + by rewrite lookup_insert_ne.
  - intros l'. destruct (decide (l = l')) as [->|].
    + by rewrite lookup_insert_eq, Hl.
    + by rewrite lookup_insert_ne.
  - intros l' w w' H. destruct (decide (l = l')) as [->|].
    + rewrite lookup_insert_eq. congruence.
    + rewrite lookup_insert_ne by done. congruence.
Qed.

Lemma preserves_ret {A} (a : A) : preserves (ret a).
Proof. intros h r h' [= _ <-]. apply keeps_refl. Qed.

Lemma preserves_raise {A} e : preserves (@raise A e).
Proof. intros h r h' [= _ <-]. apply keeps_refl. Qed.

Lemma preserves_bind {A B} (m : M A) (k : A → M B) :
  preserves m → (∀ a, preserves (k a)) → preserves (bind m k).
Proof.
  intros Hm Hk h r h'. unfold bind.
  destruct (m h) as [[a|e] h1] eqn:E.
  - intros H. eapply keeps_trans; [by eapply Hm | by eapply Hk].
  - intros [= _ <-]. by eapply Hm.
Qed.

Lemma preserves_alloc o :
  is_vqe (Some o) = false → preserves (alloc o).
Proof.
  intros Ho h r h' [= _ <-].
  apply keeps_insert; [by rewrite fresh_lookup .. | done].
Qed.

Lemma preserves_as_factory l : preserves (as_factory l).
Proof.
  intros h r h'. unfold as_factory.
  destruct (h !! l) as [[]|]; intros [= _ <-]; apply keeps_refl.
Qed.

Lemma preserves_as_vqe l : preserves (as_vqe l).
Proof.
  intros h r h'. unfold as_vqe.
  destruct (h !! l) as [[]|]; intros [= _ <-]; apply keeps_refl.
Qed.

Lemma preserves_as_ansatz l : preserves (as_ansatz l).
Proof.
  intros h r h'. unfold as_ansatz.
  destruct (h !! l) as [[]|]; intros [= _ <-]; apply keeps_refl.
Qed.

Lemma preserves_as_strategy l : preserves (as_strategy l).
Proof.
  intros h r h'. unfold as_strategy.
  destruct (h !! l) as [[]|]; intros [= _ <-]; apply keeps_refl.
Qed.

(** An attribute assignment on an ansatz or a strategy: read the object,
    write it back changed. *)
Lemma preserves_update_ansatz a (g : ansatz → ansatz) :
  preserves (x <- as_ansatz a ;; store a (OAnsatz (g x))).
Proof.
  intros h r h'. unfold bind, as_ansatz, store.
  destruct (h !! a) as [[]|] eqn:E; intros [= _ <-];
    try apply keeps_refl.
  apply keeps_insert; by rewrite ?E.
Qed.

Lemma preserves_set_ip_ansatz s a : preserves (set_ip_ansatz s a).
Proof.
  intros h r h'. unfold set_ip_ansatz, bind, as_strategy, store.
  destruct (h !! s) as [[]|] eqn:E; intros [= _ <-];
    try apply keeps_refl.
  apply keeps_insert; by rewrite ?E.
Qed.

Lemma preserves_update_vqe s (g : vqe → vqe) :
  (∀ v, vqe_kwargs (g v) = vqe_kwargs v) →
  preserves (x <- as_vqe s ;; store s (OVQE (g x))).
Proof.
  intros Hg h r h'. unfold bind, as_vqe, store.
  destruct (h !! s) as [[]|] eqn:E; intros [= _ <-];
    try apply keeps_refl.
  by eapply keeps_insert_vqe.
Qed.

Lemma preserves_to_numpy_array s : preserves (to_numpy_array s).
Proof.
  unfold to_numpy_array. apply preserves_bind; [apply preserves_as_strategy|].
  intros x. destruct (ip_ansatz x).
  - apply preserves_bind; [apply preserves_as_ansatz|].
    intros y h r h' [= _ <-]. apply keeps_refl.
  - apply preserves_raise.
Qed.

Lemma preserves_resolve_num_modals p : preserves (resolve_num_modals p).
Proof.
  unfold resolve_num_modals, py_len.
  destruct (num_modals_per_mode (basis p)).
  - apply preserves_bind; [apply preserves_raise|]. intros; apply preserves_ret.
  - apply preserves_bind; intros; apply preserves_ret.
Qed.

Lemma preserves_resolve_initial_point self a :
  preserves (resolve_initial_point self a).
Proof.
  unfold resolve_initial_point, get_initial_point.
  apply preserves_bind.
  { apply preserves_bind; [apply preserves_as_factory|intros; apply preserves_ret]. }
  intros [| |s]; try apply preserves_ret.
  apply preserves_bind; [apply preserves_set_ip_ansatz|intros _].
  apply preserves_bind; [apply preserves_to_numpy_array|intros; apply preserves_ret].
Qed.

Lemma preserves_get_solver self p qc : preserves (get_solver self p qc).
Proof.
  unfold get_solver, get_initial_state, minimum_eigensolver.
  apply preserves_bind; [apply preserves_resolve_num_modals|]. intros l.
  apply preserves_bind.
  { apply preserves_bind; [apply preserves_as_factory|intros; apply preserves_ret]. }
  intros c0. apply preserves_bind.
  { destruct c0; [apply preserves_ret | by apply preserves_alloc]. }
  intros c. apply preserves_bind; [apply preserves_as_factory|]. intros f.
  apply preserves_bind.
  { destruct (_ansatz f); [apply preserves_ret | by apply preserves_alloc]. }
  intros a.
  apply preserves_bind; [apply (preserves_update_ansatz a (λ x, _))|intros _].
  apply preserves_bind; [apply (preserves_update_ansatz a (λ x, _))|intros _].
  apply preserves_bind; [apply (preserves_update_ansatz a (λ x, _))|intros _].
  apply preserves_bind; [apply preserves_resolve_initial_point|intros ip].
  apply preserves_bind.
  { apply preserves_bind; [apply preserves_as_factory|intros; apply preserves_ret]. }
  intros s1.
  apply preserves_bind; [by apply (preserves_update_vqe s1 (λ x, _))|intros _].
  apply preserves_bind.
  { apply preserves_bind; [apply preserves_as_factory|intros; apply preserves_ret]. }
  intros s2.
  apply preserves_bind; [by apply (preserves_update_vqe s2 (λ x, _))|intros _].
  apply preserves_bind; [apply preserves_as_factory|intros; apply preserves_ret].
Qed.


(** ** [get_solver] on a sequence layout *)

Lemma well_typed_inv h self :
  well_typed h self = true →
  ∃ f v, h !! self = Some (OFactory f) ∧ h !! _vqe f = Some (OVQE v) ∧
    (∀ a, _ansatz f = Some a → ∃ x, h !! a = Some (OAnsatz x)) ∧
    (∀ c, _initial_state f = Some c → ∃ x, h !! c = Some (OCircuit x)) ∧
    (∀ s, _initial_point f = InitialPointRef s →
          ∃ x, h !! s = Some (OInitialPoint x)).
Proof.
  unfold well_typed. destruct (h !! self) as [[f| | | |]|]; try done.
  rewrite !andb_true_iff. intros [[[Hv Ha] Hc] Hs].
  destruct (h !! _vqe f) as [[|v| | |]|] eqn:Ev; try done.
  exists f, v. repeat split; try done.
  - intros a Ea. rewrite Ea in Ha. simpl in Ha.
    destruct (h !! a) as [[]|]; try done. eauto.
  - intros c Ec. rewrite Ec in Hc. simpl in Hc.
    destruct (h !! c) as [[]|]; try done. eauto.
  - intros s Es. rewrite Es in Hs.
    destruct (h !! s) as [[]|]; try done. eauto.
Qed.

Lemma lookup_kind_ne (h : heap) l1 l2 o1 o2 :
  h !! l1 = Some o1 → h !! l2 = o2 → Some o1 ≠ o2 → l1 ≠ l2.
Proof. intros H1 H2 Hne ->. congruence. Qed.

(** Distinctness of the objects at hand, from their classes and from the
    freshness of new identities. *)
Ltac distinct :=
  repeat match goal with
  | H : <[_ := _]> _ !! _ = None |- _ =>
      apply lookup_insert_None in H; destruct H
  end;
  repeat match goal with
  | H1 : ?h !! ?l1 = Some ?o1, H2 : ?h !! ?l2 = ?o2 |- _ =>
      lazymatch goal with
      | _ : l1 ≠ l2 |- _ => fail
      | _ : l2 ≠ l1 |- _ => fail
      | _ => assert (l1 ≠ l2)
               by (apply (lookup_kind_ne h l1 l2 o1 o2 H1 H2); discriminate)
      end
  end.

Ltac lookup :=
  repeat first [ rewrite lookup_insert_eq | rewrite lookup_insert_ne by done ];
  first [ eassumption | reflexivity ].

Ltac run :=
  lazymatch goal with
  | |- ?m ?h = (Ok ?a, ?h') => change (returns m h a h')
  | _ => idtac
  end;
  repeat (cbn beta iota delta
            [_ansatz _initial_state _initial_point _vqe ip_ansatz ip_cls];
          lazymatch goal with
          | |- returns (bind _ _) _ _ _ => eapply returns_bind
          | |- returns (ret _) _ _ _ => apply returns_ret
          | |- returns (alloc _) _ _ _ =>
              first [ eassumption | apply returns_alloc ]
          | |- returns (store _ _) _ _ _ => apply returns_store
          | |- returns (as_factory _) _ _ _ => apply returns_as_factory; lookup
          | |- returns (as_vqe _) _ _ _ => apply returns_as_vqe; lookup
          | |- returns (as_ansatz _) _ _ _ => apply returns_as_ansatz; lookup
          | |- returns (as_strategy _) _ _ _ =>
              apply returns_as_strategy; lookup
          | |- returns (λ h, _) _ _ _ => reflexivity
          end).

Ltac post :=
  repeat split; try done; unfold view; simpl;
  repeat (match goal with
          | |- context [strategy_at] => unfold strategy_at
          | H : ?h !! ?l = _ |- context [?h !! ?l] => rewrite H
          | |- ∃ _, _ => eexists
          | |- _ ∧ _ => split
          | |- _ => first [ rewrite lookup_insert_eq
                          | rewrite lookup_insert_ne by done ]
          end; simpl);
  try done.

(** What is left of the store: the objects written are the ansatz, the
    solver, the strategy and a new circuit. *)
Ltac frame :=
  intros ? ? ? ? ?;
  repeat (rewrite lookup_insert_ne by (first [ done | congruence ]));
  done.

Lemma get_solver_exec h self f p l qc :
  h !! self = Some (OFactory f) → well_typed h self = true →
  num_modals_per_mode (basis p) = Seq l →
  ∃ h' c a x0 v,
    get_solver self p qc h = (Ok (_vqe f), h')
    ∧ h !! _vqe f = Some (OVQE v)
    ∧ match _initial_state f with
      | Some c' => c = c' ∧ h' !! c = h !! c
      | None => h !! c = None ∧ h' !! c = Some (OCircuit (VSCF l))
      end
    ∧ match _ansatz f with
      | Some a' => a = a' ∧ h !! a = Some (OAnsatz x0)
      | None => h !! a = None ∧ x0 = new_UVCCSD
      end
    ∧ a ≠ c
    ∧ h' !! a = Some (OAnsatz {| cls := cls x0;
                                 qubit_converter := Some qc;
                                 num_modals := Some l;
                                 initial_state := Some c |})
    ∧ h' !! _vqe f =
        Some (OVQE {| vqe_kwargs := vqe_kwargs v;
                      vqe_ansatz := Some a;
                      vqe_initial_point :=
                        resolved_point h (_initial_point f)
                          {| view_cls := cls x0;
                             view_qubit_converter := Some qc;
                             view_num_modals := Some l;
                             view_initial_state := h' !! c |} |})
    ∧ match _initial_point f with
      | InitialPointRef s =>
          ∃ x, h !! s = Some (OInitialPoint x) ∧
               h' !! s = Some (OInitialPoint {| ip_cls := ip_cls x;
                                                ip_ansatz := Some a |})
      | _ => True
      end
    ∧ ∀ l', l' ≠ c → l' ≠ a → l' ≠ _vqe f →
            _initial_point f ≠ InitialPointRef l' → h' !! l' = h !! l'.
Proof.
  intros Hself Hwt Hl.
  destruct (well_typed_inv _ _ Hwt) as (f' & v & Hself' & Hv & Ha & Hc & Hs).
  assert (f' = f) as -> by congruence. clear Hself'.
  unfold get_solver, resolve_num_modals, resolve_initial_point,
    get_initial_state, get_initial_point, minimum_eigensolver,
    set_qubit_converter, set_num_modals, set_initial_state,
    set_vqe_initial_point, set_vqe_ansatz, set_ip_ansatz, to_numpy_array,
    py_len.
  rewrite Hl.
  destruct f as [[c|] ip [a|] s]; simpl in *.
  - destruct (Ha a eq_refl) as [x0 Hx0]. destruct (Hc c eq_refl) as [y Hy].
    destruct ip as [|pt|ps]; [| |destruct (Hs ps eq_refl) as [z Hz]];
      distinct; eexists _, c, a, x0, v; (split; [run|]); post; frame.
  - destruct (Hc c eq_refl) as [y Hy].
    pose proof (fresh_lookup h) as Hfa.
    destruct ip as [|pt|ps]; [| |destruct (Hs ps eq_refl) as [z Hz]];
      distinct; eexists _, c, (fresh (dom h)), new_UVCCSD, v;
      (split; [run|]); post; frame.
  - destruct (Ha a eq_refl) as [x0 Hx0].
    pose proof (fresh_lookup h) as Hfc.
    destruct ip as [|pt|ps]; [| |destruct (Hs ps eq_refl) as [z Hz]];
      distinct; eexists _, (fresh (dom h)), a, x0, v;
      (split; [run|]); post; frame.
  - pose proof (fresh_lookup h) as Hfc.
    pose proof (fresh_lookup (<[fresh (dom h) := OCircuit (VSCF l)]> h)) as Hfa.
    destruct ip as [|pt|ps]; [| |destruct (Hs ps eq_refl) as [z Hz]];
      distinct; eexists _, (fresh (dom h)), _, new_UVCCSD, v;
      (split; [run|]); post; frame.
Qed.

Lemma get_solver_returns h self f p l qc :
  h !! self = Some (OFactory f) → well_typed h self = true →
  num_modals_per_mode (basis p) = Seq l →
  ∃ h' c a x0 v,
    get_solver self p qc h = (Ok (_vqe f), h')
    ∧ h !! _vqe f = Some (OVQE v)
    ∧ match _initial_state f with
      | Some c' => c = c' ∧ h' !! c = h !! c
      | None => h !! c = None ∧ h' !! c = Some (OCircuit (VSCF l))
      end
    ∧ match _ansatz f with
      | Some a' => a = a' ∧ h !! a = Some (OAnsatz x0)
      | None => h !! a = None ∧ x0 = new_UVCCSD
      end
    ∧ a ≠ c
    ∧ h' !! a = Some (OAnsatz {| cls := cls x0;
                                 qubit_converter := Some qc;
                                 num_modals := Some l;
                                 initial_state := Some c |})
    ∧ h' !! _vqe f =
        Some (OVQE {| vqe_kwargs := vqe_kwargs v;
                      vqe_ansatz := Some a;
                      vqe_initial_point :=
                        resolved_point h (_initial_point f)
                          {| view_cls := cls x0;
                             view_qubit_converter := Some qc;
                             view_num_modals := Some l;
                             view_initial_state := h' !! c |} |})
    ∧ match _initial_point f with
      | InitialPointRef s =>
          ∃ x, h !! s = Some (OInitialPoint x) ∧
               h' !! s = Some (OInitialPoint {| ip_cls := ip_cls x;
                                                ip_ansatz := Some a |})
      | _ => True
      end.
Proof.
  intros Hself Hwt Hl.
  destruct (get_solver_exec h self f p l qc Hself Hwt Hl)
    as (h' & c & a & x0 & v & H1 & H2 & H3 & H4 & H5 & H6 & H7 & H8 & _).
  by exists h', c, a, x0, v.
Qed.

Lemma yields_bind {A B} (P : B → heap → Prop) (m : M A) (k : A → M B) :
  (∀ a, yields P (k a)) → yields P (bind m k).
Proof.
  intros Hk h b h'. unfold bind. destruct (m h) as [[a|e] h1]; [|done].
  apply Hk.
Qed.

Lemma get_solver_yields self p qc :
  yields (λ s h', ∃ f, h' !! self = Some (OFactory f) ∧ s = _vqe f)
         (get_solver self p qc).
Proof.
  unfold get_solver.
  repeat lazymatch goal with
         | |- yields _ (minimum_eigensolver _) => fail
         | _ => apply yields_bind; intros
         end.
  intros h s h'. unfold minimum_eigensolver, bind, as_factory, ret.
  destruct (h !! self) as [[f| | | |]|] eqn:E; simpl; intros H;
    inversion H; subst; eauto.
Qed.

(** On a well-typed factory and a sequence layout, [get_solver] returns the
    factory's solver and leaves the factory as it was, still well typed. *)
Lemma get_solver_spec h self f p l qc :
  h !! self = Some (OFactory f) → well_typed h self = true →
  num_modals_per_mode (basis p) = Seq l →
  ∃ h' c a x0 v,
    get_solver self p qc h = (Ok (_vqe f), h')
    ∧ h !! _vqe f = Some (OVQE v)
    ∧ match _initial_state f with
      | Some c' => c = c' ∧ h' !! c = h !! c
      | None => h !! c = None ∧ h' !! c = Some (OCircuit (VSCF l))
      end
    ∧ match _ansatz f with
      | Some a' => a = a' ∧ h !! a = Some (OAnsatz x0)
      | None => h !! a = None ∧ x0 = new_UVCCSD
      end
    ∧ a ≠ c
    ∧ h' !! a = Some (OAnsatz {| cls := cls x0;
                                 qubit_converter := Some qc;
                                 num_modals := Some l;
                                 initial_state := Some c |})
    ∧ h' !! _vqe f =
        Some (OVQE {| vqe_kwargs := vqe_kwargs v;
                      vqe_ansatz := Some a;
                      vqe_initial_point :=
                        resolved_point h (_initial_point f)
                          {| view_cls := cls x0;
                             view_qubit_converter := Some qc;
                             view_num_modals := Some l;
                             view_initial_state := h' !! c |} |})
    ∧ match _initial_point f with
      | InitialPointRef s =>
          ∃ x, h !! s = Some (OInitialPoint x) ∧
               h' !! s = Some (OInitialPoint {| ip_cls := ip_cls x;
                                                ip_ansatz := Some a |})
      | _ => True
      end
    ∧ h' !! self = Some (OFactory f)
    ∧ well_typed h' self = true.
Proof.
  intros Hself Hwt Hl.
  destruct (get_solver_returns h self f p l qc Hself Hwt Hl)
    as (h' & c & a & x0 & v & Hrun & Hv & Hc & Ha & Hac & Ha' & Hv' & Hs).
  destruct (preserves_get_solver _ _ _ _ _ _ Hrun) as (Hf & _ & _).
  pose proof (Hf _ _ Hself) as Hself'.
  destruct (well_typed_inv _ _ Hwt) as (f' & _ & E & _ & _ & Hct & _).
  assert (f' = f) as -> by congruence.
  exists h', c, a, x0, v. repeat split; try done.
  unfold well_typed. rewrite Hself', Hv'. simpl.
  destruct (_ansatz f) as [a'|]; simpl.
  - destruct Ha as [-> _]. rewrite Ha'. simpl.
    destruct (_initial_state f) as [c'|] eqn:Ec; simpl.
    + destruct Hc as [-> ->]. destruct (Hct c' eq_refl) as [y ->]. simpl.
      destruct (_initial_point f); try done.
      by destruct Hs as (x & _ & ->).
    + destruct (_initial_point f); try done.
      by destruct Hs as (x & _ & ->).
  - destruct (_initial_state f) as [c'|] eqn:Ec; simpl.
    + destruct Hc as [-> ->]. destruct (Hct c' eq_refl) as [y ->]. simpl.
      destruct (_initial_point f); try done.
      by destruct Hs as (x & _ & ->).
    + destruct (_initial_point f); try done.
      by destruct Hs as (x & _ & ->).
Qed.

(** ** The constructor *)

Lemma init_spec ip a c kw h :
  ∃ self h' v,
    __init__ ip a c kw h = (Ok self, h')
    ∧ h !! v = None ∧ h' !! v = Some (OVQE (VQE kw))
    ∧ h !! self = None ∧ self ≠ v
    ∧ match ip with
      | PyNone =>
          ∃ s, h !! s = None ∧ s ≠ v ∧ s ≠ self
               ∧ h' !! s = Some (OInitialPoint new_VSCFInitialPoint)
               ∧ h' !! self =
                   Some (OFactory {| _initial_state := c;
                                     _initial_point := InitialPointRef s;
                                     _ansatz := a; _vqe := v |})
               ∧ ∀ l, l ≠ s → l ≠ v → l ≠ self → h' !! l = h !! l
      | _ =>
          h' !! self = Some (OFactory {| _initial_state := c;
                                         _initial_point := ip;
                                         _ansatz := a; _vqe := v |})
          ∧ ∀ l, l ≠ v → l ≠ self → h' !! l = h !! l
      end.
Proof.
  unfold __init__. destruct ip as [|pt|ps].
  - destruct (alloc_spec (OInitialPoint new_VSCFInitialPoint) h)
      as (s & Hs & Rs).
    destruct (alloc_spec (OVQE (VQE kw)) (<[s := OInitialPoint new_VSCFInitialPoint]> h))
      as (v & Hv & Rv).
    match type of Rv with returns _ _ _ ?h2 =>
      destruct (alloc_spec (OFactory {| _initial_state := c;
                                        _initial_point := InitialPointRef s;
                                        _ansatz := a; _vqe := v |}) h2)
        as (self & Hself & Rself) end.
    distinct.
    exists self, (<[self := OFactory {| _initial_state := c;
                                        _initial_point := InitialPointRef s;
                                        _ansatz := a; _vqe := v |}]>
                    (<[v := OVQE (VQE kw)]>
                       (<[s := OInitialPoint new_VSCFInitialPoint]> h))), v.
    split; [run|].
    repeat split; try done; try lookup.
    exists s. repeat split; try done; try lookup.
    intros l ? ? ?. by rewrite !lookup_insert_ne.
  - destruct (alloc_spec (OVQE (VQE kw)) h) as (v & Hv & Rv).
    match type of Rv with returns _ _ _ ?h2 =>
      destruct (alloc_spec (OFactory {| _initial_state := c;
                                        _initial_point := NdArray pt;
                                        _ansatz := a; _vqe := v |}) h2)
        as (self & Hself & Rself) end.
    distinct.
    exists self, (<[self := OFactory {| _initial_state := c;
                                        _initial_point := NdArray pt;
                                        _ansatz := a; _vqe := v |}]>
                    (<[v := OVQE (VQE kw)]> h)), v.
    split; [run|].
    repeat split; try done; try lookup.
    intros l ? ?. by rewrite !lookup_insert_ne.
  - destruct (alloc_spec (OVQE (VQE kw)) h) as (v & Hv & Rv).
    match type of Rv with returns _ _ _ ?h2 =>
      destruct (alloc_spec (OFactory {| _initial_state := c;
                                        _initial_point := InitialPointRef ps;
                                        _ansatz := a; _vqe := v |}) h2)
        as (self & Hself & Rself) end.
    distinct.
    exists self, (<[self := OFactory {| _initial_state := c;
                                        _initial_point := InitialPointRef ps;
                                        _ansatz := a; _vqe := v |}]>
                    (<[v := OVQE (VQE kw)]> h)), v.
    split; [run|].
    repeat split; try done; try lookup.
    intros l ? ?. by rewrite !lookup_insert_ne.
Qed.


(** ** The setters *)

Lemma set_ansatz_spec self f a h :
  h !! self = Some (OFactory f) →
  set_ansatz self a h =
    (Ok tt, <[self := OFactory {| _initial_state := _initial_state f;
                                  _initial_point := _initial_point f;
                                  _ansatz := a; _vqe := _vqe f |}]> h).
Proof. intros H. unfold set_ansatz, bind, as_factory, store. by rewrite H. Qed.

Lemma set_factory_initial_state_spec self f c h :
  h !! self = Some (OFactory f) →
  set_factory_initial_state self c h =
    (Ok tt, <[self := OFactory {| _initial_state := c;
                                  _initial_point := _initial_point f;
                                  _ansatz := _ansatz f; _vqe := _vqe f |}]> h).
Proof.
  intros H. unfold set_factory_initial_state, bind, as_factory, store.
  by rewrite H.
Qed.

Lemma set_initial_point_spec self f ip h :
  h !! self = Some (OFactory f) →
  set_initial_point self ip h =
    (Ok tt, <[self := OFactory {| _initial_state := _initial_state f;
                                  _initial_point := ip;
                                  _ansatz := _ansatz f; _vqe := _vqe f |}]> h).
Proof.
  intros H. unfold set_initial_point, bind, as_factory, store. by rewrite H.
Qed.

(** ** The claims on the factory *)

(** C1 (the code departs from the claim). For a problem whose basis
    reports a scalar [num_modals_per_mode], [get_solver] does not
    normalize the layout: [len(num_modals)] on line 155 is evaluated
    before the [isinstance] test of line 157 and raises [TypeError] on an
    [int], so the call raises and leaves the store as it was. This holds
    for every count [n] and number of modes [k], in particular for
    [n = 4] and [k = 3], where the claim expects the layout [[4; 4; 4]]. *)
Theorem get_solver_scalar_layout_raises self n k qc h :
  let problem := {| basis := {| num_modals_per_mode := Scalar n |};
                    num_modes := k |} in
  resolve_num_modals problem h = (Raise TypeError, h)
  ∧ get_solver self problem qc h = (Raise TypeError, h).
Proof. split; reflexivity. Qed.

(** C2. One solver per factory: the constructor builds the [VQE] from the
    forwarded options, at a new identity, and builds no other solver; no
    setter changes the factory's solver reference; and every [get_solver]
    call, whatever its outcome, leaves the factory's attributes and the set
    of solver objects as they were, keeps the solver's options, and can
    return nothing but the factory's own solver. On a well-typed factory
    and a sequence layout the call returns that solver configured in
    place: the object at the factory's [_vqe] is the solver it was, with
    the options it was constructed from, its [ansatz] set to the resolved
    ansatz - the override or a new [UVCCSD] object, carrying the converter
    passed in, the problem's layout and the resolved initial state - and
    its [initial_point] set to the resolved initial point. *)
Theorem one_solver_per_factory :
  (∀ ip a c kw h, ∃ self h' f,
      __init__ ip a c kw h = (Ok self, h')
      ∧ h' !! self = Some (OFactory f)
      ∧ h !! _vqe f = None
      ∧ h' !! _vqe f = Some (OVQE (VQE kw))
      ∧ ∀ l, l ≠ _vqe f → is_vqe (h' !! l) = is_vqe (h !! l))
  ∧ (∀ self f a h,
      h !! self = Some (OFactory f) →
      ∃ f', set_ansatz self a h = (Ok tt, <[self := OFactory f']> h)
            ∧ _vqe f' = _vqe f)
  ∧ (∀ self f c h,
      h !! self = Some (OFactory f) →
      ∃ f', set_factory_initial_state self c h
              = (Ok tt, <[self := OFactory f']> h)
            ∧ _vqe f' = _vqe f)
  ∧ (∀ self f ip h,
      h !! self = Some (OFactory f) →
      ∃ f', set_initial_point self ip h = (Ok tt, <[self := OFactory f']> h)
            ∧ _vqe f' = _vqe f)
  ∧ (∀ self f p qc h r h',
      h !! self = Some (OFactory f) →
      get_solver self p qc h = (r, h') →
      h' !! self = Some (OFactory f)
      ∧ (∀ l, is_vqe (h' !! l) = is_vqe (h !! l))
      ∧ (∀ v v', h !! _vqe f = Some (OVQE v) →
                 h' !! _vqe f = Some (OVQE v') →
                 vqe_kwargs v' = vqe_kwargs v)
      ∧ (∀ s, r = Ok s → s = _vqe f))
  ∧ (∀ self f p l qc h,
      h !! self = Some (OFactory f) → well_typed h self = true →
      num_modals_per_mode (basis p) = Seq l →
      ∃ h' a x c v,
        get_solver self p qc h = (Ok (_vqe f), h')
        ∧ is_vqe (h' !! _vqe f) = true
        ∧ h !! _vqe f = Some (OVQE v)
        ∧ h' !! _vqe f
          = Some (OVQE {| vqe_kwargs := vqe_kwargs v;
                          vqe_ansatz := Some a;
                          vqe_initial_point :=
                            resolved_point h (_initial_point f)
                                           (view h' x) |})
        ∧ h' !! a = Some (OAnsatz x)
        ∧ qubit_converter x = Some qc
        ∧ num_modals x = Some l
        ∧ initial_state x = Some c
        ∧ match _ansatz f with
          | Some a' => a = a'
          | None => h !! a = None ∧ cls x = UVCCSD
          end
        ∧ match _initial_state f with
          | Some c' => c = c'
          | None => h !! c = None ∧ h' !! c = Some (OCircuit (VSCF l))
          end).
Proof.
  repeat split.
  - intros ip a c kw h.
    destruct (init_spec ip a c kw h)
      as (self & h' & v & Hrun & Hv & Hv' & Hself & Hne & Hip).
    destruct ip as [|pt|ps].
    + destruct Hip as (s & Hs & Hsv & Hss & Hs' & Hf & Hfr).
      eexists self, h', _. repeat split; [done..|]. simpl.
      intros l Hl. destruct (decide (l = s)) as [->|].
      { by rewrite Hs, Hs'. }
      destruct (decide (l = self)) as [->|].
      { by rewrite Hself, Hf. }
      by rewrite Hfr.
    + destruct Hip as (Hf & Hfr).
      eexists self, h', _. repeat split; [done..|]. simpl.
      intros l Hl. destruct (decide (l = self)) as [->|].
      { by rewrite Hself, Hf. }
      by rewrite Hfr.
    + destruct Hip as (Hf & Hfr).
      eexists self, h', _. repeat split; [done..|]. simpl.
      intros l Hl. destruct (decide (l = self)) as [->|].
      { by rewrite Hself, Hf. }
      by rewrite Hfr.
  - intros self f a h Hself. eexists; split;
      [by apply set_ansatz_spec | done].
  - intros self f c h Hself. eexists; split;
      [by apply set_factory_initial_state_spec | done].
  - intros self f ip h Hself. eexists; split;
      [by apply set_initial_point_spec | done].
  - by eapply preserves_get_solver.
  - by eapply preserves_get_solver.
  - intros v v' Hv Hv'.
    destruct (preserves_get_solver _ _ _ _ _ _ H0) as (_ & _ & K). eauto.
  - intros s ->.
    destruct (get_solver_yields _ _ _ _ _ _ H0) as (f' & Hf' & ->).
    destruct (preserves_get_solver _ _ _ _ _ _ H0) as (F & _ & _).
    apply F in H. congruence.
  - intros self f p l qc h Hself Hwt Hl.
    destruct (get_solver_spec h self f p l qc Hself Hwt Hl)
      as (h' & c & a & x0 & v & Hrun & Hv & Hc & Ha & _ & Hx & Hv' & _).
    exists h', a, {| cls := cls x0; qubit_converter := Some qc;
                     num_modals := Some l; initial_state := Some c |}, c, v.
    split; [done|].
    split; [by rewrite Hv'|]. split; [done|].
    split; [by rewrite Hv'|]. split; [exact Hx|]. simpl.
    split; [done|]. split; [done|]. split; [done|]. split.
    + destruct (_ansatz f); [by destruct Ha|]. by destruct Ha as [? ->].
    + destruct (_initial_state f); [by destruct Hc|done].
Qed.

(** C3. A user-supplied ansatz is reconfigured in place: when the factory's
    [_ansatz] names the object [a], a [get_solver] call on a sequence
    layout returns the factory's solver with [solver.ansatz] being [a]
    itself, and the object at [a] keeps its class and has its
    [qubit_converter], [num_modals] and [initial_state] overwritten with
    the converter passed in, the problem's layout and the resolved initial
    state (the override, or a new [VSCF] circuit of that layout). *)
Theorem custom_ansatz_mutated_in_place h self f a x p l qc :
  h !! self = Some (OFactory f) → well_typed h self = true →
  _ansatz f = Some a → h !! a = Some (OAnsatz x) →
  num_modals_per_mode (basis p) = Seq l →
  ∃ h' c,
    get_solver self p qc h = (Ok (_vqe f), h')
    ∧ solver_ansatz h' (_vqe f) = Some a
    ∧ h' !! a = Some (OAnsatz {| cls := cls x;
                                 qubit_converter := Some qc;
                                 num_modals := Some l;
                                 initial_state := Some c |})
    ∧ match _initial_state f with
      | Some c' => c = c'
      | None => h !! c = None ∧ h' !! c = Some (OCircuit (VSCF l))
      end.
Proof.
  intros Hself Hwt Ha Hx Hl.
  destruct (get_solver_spec h self f p l qc Hself Hwt Hl)
    as (h' & c & a' & x0 & v & Hrun & _ & Hc & Ha' & _ & Hx' & Hv' & _).
  rewrite Ha in Ha'. destruct Ha' as [-> Hx0].
  assert (x0 = x) as -> by congruence.
  exists h', c. repeat split; try done.
  - unfold solver_ansatz, vqe_at. by rewrite Hv'.
  - destruct (_initial_state f); [by destruct Hc | done].
Qed.


(** C4. Idempotence under unchanged input: on a factory constructed with
    no overrides, two successive [get_solver] calls with the same problem
    and converter return the same solver, and the configuration of the
    solver's ansatz and the solver's initial point after the second call
    are those after the first. (On a scalar layout both calls raise
    [TypeError] and change nothing.) *)
Theorem get_solver_idempotent kw p qc h0 :
  ∃ self h,
    __init__ PyNone None None kw h0 = (Ok self, h)
    ∧ match num_modals_per_mode (basis p) with
      | Seq l =>
          ∃ s h1 h2 y ip,
            get_solver self p qc h = (Ok s, h1)
            ∧ get_solver self p qc h1 = (Ok s, h2)
            ∧ solver_ansatz_view h1 s = Some y
            ∧ solver_ansatz_view h2 s = Some y
            ∧ solver_initial_point h1 s = Some ip
            ∧ solver_initial_point h2 s = Some ip
      | Scalar _ =>
          get_solver self p qc h = (Raise TypeError, h)
      end.
Proof.
  destruct (init_spec PyNone None None kw h0)
    as (self & h & v & Hrun & _ & Hv & _ & _ & s & _ & _ & _ & Hs & Hf & _).
  exists self, h. split; [done|].
  destruct (num_modals_per_mode (basis p)) as [n|l] eqn:Hl.
  { unfold get_solver, resolve_num_modals. by rewrite Hl. }
  assert (well_typed h self = true) as Hwt.
  { unfold well_typed. rewrite Hf. simpl. by rewrite Hv, Hs. }
  destruct (get_solver_spec h self _ p l qc Hf Hwt Hl)
    as (h1 & c1 & a1 & x1 & v1 & Hrun1 & _ & Hc1 & Ha1 & _ & Hx1 & Hv1
        & Hs1 & Hf1 & Hwt1).
  destruct (get_solver_spec h1 self _ p l qc Hf1 Hwt1 Hl)
    as (h2 & c2 & a2 & x2 & v2 & Hrun2 & _ & Hc2 & Ha2 & _ & Hx2 & Hv2
        & Hs2 & _ & _).
  simpl in *.
  destruct Hc1 as [_ Hc1], Hc2 as [_ Hc2], Ha1 as [_ ->], Ha2 as [_ ->].
  destruct Hs1 as (k1 & Hk1 & Hk1'), Hs2 as (k2 & Hk2 & _).
  assert (k1 = new_VSCFInitialPoint) as -> by congruence.
  rewrite Hk1' in Hk2. injection Hk2 as <-.
  rewrite Hc1 in Hv1. rewrite Hc2 in Hv2.
  unfold strategy_at in Hv1, Hv2. rewrite Hs in Hv1. rewrite Hk1' in Hv2.
  simpl in *.
  eexists v, h1, h2, _, _. split; [done|]. split; [done|].
  unfold solver_ansatz_view, solver_initial_point, solver_ansatz, vqe_at,
    ansatz_at, view.
  rewrite Hv1, Hv2. simpl. rewrite Hx1, Hx2. simpl. rewrite Hc1, Hc2.
  repeat split.
Qed.

(** C5. [supports_aux_operators] returns the class-level capability flag
    of [VQE], for every factory and every store - hence whatever the
    overrides are - and changes nothing. *)
Theorem supports_aux_operators_is_class_flag self h :
  supports_aux_operators self h = (Ok VQE_supports_aux_operators, h).
Proof. reflexivity. Qed.

(** C6. The initial-point pipeline. Constructed without [initial_point],
    the factory stores a new, unbound [VSCFInitialPoint] strategy;
    constructed with one, it stores that value. A [get_solver] call (on a
    well-typed factory and a sequence layout) returns the factory's solver
    with its [initial_point] written: when the stored initial point is a
    strategy, the strategy's [ansatz] is set to the ansatz installed on the
    solver and the solver receives the vector the strategy computes from
    that ansatz; a stored array is passed on as it is, and so is [None]. *)
Theorem initial_point_pipeline :
  (∀ a c kw h, ∃ self h' f s,
      __init__ PyNone a c kw h = (Ok self, h')
      ∧ h' !! self = Some (OFactory f)
      ∧ _initial_point f = InitialPointRef s
      ∧ h !! s = None
      ∧ h' !! s = Some (OInitialPoint new_VSCFInitialPoint))
  ∧ (∀ ip a c kw h, ip ≠ PyNone → ∃ self h' f,
      __init__ ip a c kw h = (Ok self, h')
      ∧ h' !! self = Some (OFactory f)
      ∧ _initial_point f = ip)
  ∧ (∀ h self f p l qc,
      h !! self = Some (OFactory f) → well_typed h self = true →
      num_modals_per_mode (basis p) = Seq l →
      ∃ h' a x,
        get_solver self p qc h = (Ok (_vqe f), h')
        ∧ solver_ansatz h' (_vqe f) = Some a
        ∧ ansatz_at h' a = Some x
        ∧ match _initial_point f with
          | InitialPointRef s =>
              ∃ k, strategy_at h s = Some k
                   ∧ strategy_at h' s = Some {| ip_cls := ip_cls k;
                                                ip_ansatz := Some a |}
                   ∧ solver_initial_point h' (_vqe f)
                     = Some (Some (compute (ip_cls k) (view h' x)))
          | NdArray pt => solver_initial_point h' (_vqe f) = Some (Some pt)
          | PyNone => solver_initial_point h' (_vqe f) = Some None
          end).
Proof.
  repeat split.
  - intros a c kw h.
    destruct (init_spec PyNone a c kw h)
      as (self & h' & v & Hrun & _ & _ & _ & _ & s & Hs & _ & _ & Hs' & Hf & _).
    by eexists self, h', _, s.
  - intros ip a c kw h Hip.
    destruct (init_spec ip a c kw h)
      as (self & h' & v & Hrun & _ & _ & _ & _ & H).
    destruct ip as [|pt|ps]; [done| |]; destruct H as [Hf _];
      by eexists self, h', _.
  - intros h self f p l qc Hself Hwt Hl.
    destruct (get_solver_spec h self f p l qc Hself Hwt Hl)
      as (h' & c & a & x0 & v & Hrun & _ & _ & _ & _ & Hx & Hv' & Hs & _).
    eexists h', a, _. split; [done|].
    unfold solver_ansatz, solver_initial_point, ansatz_at, strategy_at,
      vqe_at, view.
    rewrite Hv', Hx. simpl. repeat split.
    destruct (_initial_point f) as [|pt|s]; simpl; try done.
    destruct Hs as (k & Hk & Hk'). exists k.
    unfold strategy_at. by rewrite Hk, Hk'.
Qed.

(** C7. Selection of the initial state and of the ansatz. After a
    [get_solver] call (on a well-typed factory and a sequence layout [l])
    the ansatz installed on the solver is the factory's [_ansatz] when one
    is set and otherwise a new object of class [UVCCSD]; its
    [initial_state] is the factory's [_initial_state] when one is set and
    otherwise a new [VSCF] circuit built from [l]. *)
Theorem default_or_override h self f p l qc :
  h !! self = Some (OFactory f) → well_typed h self = true →
  num_modals_per_mode (basis p) = Seq l →
  ∃ h' a x c,
    get_solver self p qc h = (Ok (_vqe f), h')
    ∧ solver_ansatz h' (_vqe f) = Some a
    ∧ ansatz_at h' a = Some x
    ∧ initial_state x = Some c
    ∧ match _initial_state f with
      | Some c' => c = c'
      | None => h !! c = None ∧ h' !! c = Some (OCircuit (VSCF l))
      end
    ∧ match _ansatz f with
      | Some a' => a = a'
      | None => h !! a = None ∧ cls x = UVCCSD
      end.
Proof.
  intros Hself Hwt Hl.
  destruct (get_solver_spec h self f p l qc Hself Hwt Hl)
    as (h' & c & a & x0 & v & Hrun & _ & Hc & Ha & _ & Hx & Hv' & _).
  eexists h', a, _, c. split; [done|].
  unfold solver_ansatz, ansatz_at, vqe_at. rewrite Hv', Hx. simpl.
  repeat split.
  - destruct (_initial_state f); [by destruct Hc | done].
  - destruct (_ansatz f); [by destruct Ha |].
    destruct Ha as [? ->]. done.
Qed.

(** C10. The default ansatz is not cached. On a factory without ansatz
    override, a [get_solver] call installs a new [UVCCSD] object on the
    solver and leaves the factory's [_ansatz] unset; a second call, for any
    problem with a sequence layout and any converter, installs yet another
    new object on the same solver. *)
Theorem default_ansatz_not_cached h self f p l qc p' l' qc' :
  h !! self = Some (OFactory f) → well_typed h self = true →
  _ansatz f = None →
  num_modals_per_mode (basis p) = Seq l →
  num_modals_per_mode (basis p') = Seq l' →
  ∃ h1 h2 a1 a2 x1 x2 f1,
    get_solver self p qc h = (Ok (_vqe f), h1)
    ∧ factory_at h1 self = Some f1 ∧ _ansatz f1 = None
    ∧ solver_ansatz h1 (_vqe f) = Some a1
    ∧ h !! a1 = None
    ∧ h1 !! a1 = Some (OAnsatz x1) ∧ cls x1 = UVCCSD
    ∧ get_solver self p' qc' h1 = (Ok (_vqe f), h2)
    ∧ factory_at h2 self = Some f1
    ∧ solver_ansatz h2 (_vqe f) = Some a2
    ∧ h1 !! a2 = None
    ∧ h2 !! a2 = Some (OAnsatz x2) ∧ cls x2 = UVCCSD
    ∧ a2 ≠ a1.
Proof.
  intros Hself Hwt Hnone Hl Hl'.
  destruct (get_solver_spec h self f p l qc Hself Hwt Hl)
    as (h1 & c1 & a1 & y1 & v1 & Hrun1 & _ & _ & Ha1 & _ & Hx1 & Hv1
        & _ & Hf1 & Hwt1).
  destruct (get_solver_spec h1 self f p' l' qc' Hf1 Hwt1 Hl')
    as (h2 & c2 & a2 & y2 & v2 & Hrun2 & _ & _ & Ha2 & _ & Hx2 & Hv2
        & _ & Hf2 & _).
  rewrite Hnone in Ha1, Ha2. destruct Ha1 as [Hfresh1 ->], Ha2 as [Hfresh2 ->].
  eexists h1, h2, a1, a2, _, _, f.
  unfold factory_at, solver_ansatz, vqe_at.
  rewrite Hf1, Hf2, Hv1, Hv2. simpl.
  repeat split; try done.
  intros ->. congruence.
Qed.


(** ** Further properties of the factory *)

Lemma well_typed_intro h self f v :
  h !! self = Some (OFactory f) → h !! _vqe f = Some (OVQE v) →
  (∀ a, _ansatz f = Some a → ∃ x, h !! a = Some (OAnsatz x)) →
  (∀ c, _initial_state f = Some c → ∃ x, h !! c = Some (OCircuit x)) →
  (∀ s, _initial_point f = InitialPointRef s →
        ∃ x, h !! s = Some (OInitialPoint x)) →
  well_typed h self = true.
Proof.
  intros Hself Hv Ha Hc Hs. unfold well_typed. rewrite Hself, Hv. simpl.
  destruct (_ansatz f) as [a|]; simpl.
  - destruct (Ha a eq_refl) as [x ->]. simpl.
    destruct (_initial_state f) as [c|]; simpl.
    + destruct (Hc c eq_refl) as [y ->]. simpl.
      destruct (_initial_point f) as [| |s]; try done.
      by destruct (Hs s eq_refl) as [z ->].
    + destruct (_initial_point f) as [| |s]; try done.
      by destruct (Hs s eq_refl) as [z ->].
  - destruct (_initial_state f) as [c|]; simpl.
    + destruct (Hc c eq_refl) as [y ->]. simpl.
      destruct (_initial_point f) as [| |s]; try done.
      by destruct (Hs s eq_refl) as [z ->].
    + destruct (_initial_point f) as [| |s]; try done.
      by destruct (Hs s eq_refl) as [z ->].
Qed.

(** Assigning a factory attribute keeps the factory well typed, when the
    new attributes name objects of their classes. *)
Lemma well_typed_set_factory h self f f' :
  h !! self = Some (OFactory f) → well_typed h self = true →
  _vqe f' = _vqe f →
  (∀ a, _ansatz f' = Some a → ∃ x, h !! a = Some (OAnsatz x)) →
  (∀ c, _initial_state f' = Some c → ∃ x, h !! c = Some (OCircuit x)) →
  (∀ s, _initial_point f' = InitialPointRef s →
        ∃ x, h !! s = Some (OInitialPoint x)) →
  well_typed (<[self := OFactory f']> h) self = true.
Proof.
  intros Hself Hwt Hv Ha Hc Hs.
  destruct (well_typed_inv _ _ Hwt) as (f0 & v & E & Hv0 & _).
  assert (f0 = f) as -> by congruence.
  assert (∀ l o, h !! l = Some o → o ≠ OFactory f →
                 <[self := OFactory f']> h !! l = Some o) as Hne.
  { intros l o Hl Ho. rewrite lookup_insert_ne; [done|]. intros <-. congruence. }
  apply (well_typed_intro _ self f' v).
  - apply lookup_insert_eq.
  - rewrite Hv. by apply Hne.
  - intros a Ea. destruct (Ha a Ea) as [x Hx]. exists x. by apply Hne.
  - intros c Ec. destruct (Hc c Ec) as [x Hx]. exists x. by apply Hne.
  - intros s Es. destruct (Hs s Es) as [x Hx]. exists x. by apply Hne.
Qed.

(** Overwriting the solver with a solver keeps the factory well typed. *)
Lemma well_typed_insert_vqe h self f v' :
  h !! self = Some (OFactory f) → well_typed h self = true →
  well_typed (<[_vqe f := OVQE v']> h) self = true.
Proof.
  intros Hself Hwt.
  destruct (well_typed_inv _ _ Hwt) as (f0 & v & E & Hv0 & Ha & Hc & Hs).
  assert (f0 = f) as -> by congruence.
  assert (∀ l o, h !! l = Some o → (∀ w, o ≠ OVQE w) →
                 <[_vqe f := OVQE v']> h !! l = Some o) as Hne.
  { intros l o Hl Ho. rewrite lookup_insert_ne; [done|]. intros <-.
    rewrite Hv0 in Hl. injection Hl as <-. by eapply Ho. }
  apply (well_typed_intro _ self f v').
  - by apply Hne.
  - apply lookup_insert_eq.
  - intros a Ea. destruct (Ha a Ea) as [x Hx]. exists x. by apply Hne.
  - intros c Ec. destruct (Hc c Ec) as [x Hx]. exists x. by apply Hne.
  - intros s Es. destruct (Hs s Es) as [x Hx]. exists x. by apply Hne.
Qed.

(** Everything [get_solver] does on a well-typed factory and a sequence
    layout. *)
Lemma get_solver_full h self f p l qc :
  h !! self = Some (OFactory f) → well_typed h self = true →
  num_modals_per_mode (basis p) = Seq l →
  ∃ h' c a x0 v,
    get_solver self p qc h = (Ok (_vqe f), h')
    ∧ h !! _vqe f = Some (OVQE v)
    ∧ match _initial_state f with
      | Some c' => c = c' ∧ h' !! c = h !! c
      | None => h !! c = None ∧ h' !! c = Some (OCircuit (VSCF l))
      end
    ∧ match _ansatz f with
      | Some a' => a = a' ∧ h !! a = Some (OAnsatz x0)
      | None => h !! a = None ∧ x0 = new_UVCCSD
      end
    ∧ a ≠ c
    ∧ h' !! a = Some (OAnsatz {| cls := cls x0;
                                 qubit_converter := Some qc;
                                 num_modals := Some l;
                                 initial_state := Some c |})
    ∧ solver_ansatz h' (_vqe f) = Some a
    ∧ solver_initial_point h' (_vqe f)
      = Some (resolved_point h (_initial_point f)
                {| view_cls := cls x0;
                   view_qubit_converter := Some qc;
                   view_num_modals := Some l;
                   view_initial_state := h' !! c |})
    ∧ (∀ l', l' ≠ c → l' ≠ a → l' ≠ _vqe f →
             _initial_point f ≠ InitialPointRef l' → h' !! l' = h !! l')
    ∧ h' !! self = Some (OFactory f)
    ∧ well_typed h' self = true.
Proof.
  intros Hself Hwt Hl.
  destruct (get_solver_exec h self f p l qc Hself Hwt Hl)
    as (h' & c & a & x0 & v & H1 & H2 & H3 & H4 & H5 & H6 & H7 & _ & H9).
  destruct (get_solver_spec h self f p l qc Hself Hwt Hl)
    as (h'' & _ & _ & _ & _ & H1' & _ & _ & _ & _ & _ & _ & _ & Hs & Hw).
  assert (h'' = h') as -> by congruence.
  exists h', c, a, x0, v.
  unfold solver_ansatz, solver_initial_point, vqe_at. rewrite H7. simpl.
  by repeat split.
Qed.


(** X1. The attribute setters and getters: on a factory, each setter
    accepts any value without validation; afterwards the matching getter
    returns that value, the other two getters and [minimum_eigensolver]
    return what they returned before, and no other object has changed. *)
Theorem setter_getter_round_trip self f h a c ip :
  h !! self = Some (OFactory f) →
  (∃ h1, set_ansatz self a h = (Ok tt, h1)
         ∧ get_ansatz self h1 = (Ok a, h1)
         ∧ get_initial_state self h1 = (Ok (_initial_state f), h1)
         ∧ get_initial_point self h1 = (Ok (_initial_point f), h1)
         ∧ minimum_eigensolver self h1 = (Ok (_vqe f), h1)
         ∧ ∀ l, l ≠ self → h1 !! l = h !! l)
  ∧ (∃ h1, set_factory_initial_state self c h = (Ok tt, h1)
           ∧ get_initial_state self h1 = (Ok c, h1)
           ∧ get_ansatz self h1 = (Ok (_ansatz f), h1)
           ∧ get_initial_point self h1 = (Ok (_initial_point f), h1)
           ∧ minimum_eigensolver self h1 = (Ok (_vqe f), h1)
           ∧ ∀ l, l ≠ self → h1 !! l = h !! l)
  ∧ (∃ h1, set_initial_point self ip h = (Ok tt, h1)
           ∧ get_initial_point self h1 = (Ok ip, h1)
           ∧ get_ansatz self h1 = (Ok (_ansatz f), h1)
           ∧ get_initial_state self h1 = (Ok (_initial_state f), h1)
           ∧ minimum_eigensolver self h1 = (Ok (_vqe f), h1)
           ∧ ∀ l, l ≠ self → h1 !! l = h !! l).
Proof.
  intros Hself. repeat split.
  - eexists. split; [by apply set_ansatz_spec|].
    unfold get_ansatz, get_initial_state, get_initial_point,
      minimum_eigensolver, bind, as_factory, ret.
    rewrite lookup_insert_eq. repeat split.
    intros l Hl. by rewrite lookup_insert_ne.
  - eexists. split; [by apply set_factory_initial_state_spec|].
    unfold get_ansatz, get_initial_state, get_initial_point,
      minimum_eigensolver, bind, as_factory, ret.
    rewrite lookup_insert_eq. repeat split.
    intros l Hl. by rewrite lookup_insert_ne.
  - eexists. split; [by apply set_initial_point_spec|].
    unfold get_ansatz, get_initial_state, get_initial_point,
      minimum_eigensolver, bind, as_factory, ret.
    rewrite lookup_insert_eq. repeat split.
    intros l Hl. by rewrite lookup_insert_ne.
Qed.

(** X2. The constructor stores the [ansatz] and [initial_state] arguments
    as they are given, whatever they name, and an [initial_point] other
    than [None] likewise; the getters of the new factory return them. The
    factory is a new object, and no object that existed before the call is
    changed. *)
Theorem constructor_stores_overrides ip a c kw h :
  ∃ self h',
    __init__ ip a c kw h = (Ok self, h')
    ∧ h !! self = None
    ∧ get_ansatz self h' = (Ok a, h')
    ∧ get_initial_state self h' = (Ok c, h')
    ∧ match ip with
      | PyNone => ∃ s, get_initial_point self h' = (Ok (InitialPointRef s), h')
                       ∧ h !! s = None
      | _ => get_initial_point self h' = (Ok ip, h')
      end
    ∧ (∃ v, minimum_eigensolver self h' = (Ok v, h')
            ∧ h' !! v = Some (OVQE (VQE kw)))
    ∧ ∀ l o, h !! l = Some o → h' !! l = Some o.
Proof.
  destruct (init_spec ip a c kw h)
    as (self & h' & v & Hrun & Hv & Hv' & Hself & Hne & Hip).
  exists self, h'. split; [done|]. split; [done|].
  unfold get_ansatz, get_initial_state, get_initial_point,
    minimum_eigensolver, bind, as_factory, ret.
  destruct ip as [|pt|ps].
  - destruct Hip as (s & Hs & Hsv & Hss & Hs' & Hf & Hfr).
    rewrite Hf. simpl. repeat split; eauto.
    intros l o Hl. rewrite Hfr; [done|congruence..].
  - destruct Hip as (Hf & Hfr).
    rewrite Hf. simpl. repeat split; eauto.
    intros l o Hl. rewrite Hfr; [done|congruence..].
  - destruct Hip as (Hf & Hfr).
    rewrite Hf. simpl. repeat split; eauto.
    intros l o Hl. rewrite Hfr; [done|congruence..].
Qed.

(** X3. The frame of a successful [get_solver] call: an object that is
    neither the factory's ansatz, nor its solver, nor its initial-point
    strategy is the same after the call as before. So the factory itself,
    a circuit given as initial state, and every other ansatz, strategy or
    solver in the store are left alone. *)
Theorem get_solver_leaves_other_objects h self f p l qc l' o :
  h !! self = Some (OFactory f) → well_typed h self = true →
  num_modals_per_mode (basis p) = Seq l →
  h !! l' = Some o →
  _ansatz f ≠ Some l' → l' ≠ _vqe f → _initial_point f ≠ InitialPointRef l' →
  ∃ h', get_solver self p qc h = (Ok (_vqe f), h') ∧ h' !! l' = Some o.
Proof.
  intros Hself Hwt Hl Ho Ha Hv Hs.
  destruct (get_solver_full h self f p l qc Hself Hwt Hl)
    as (h' & c & a & x0 & v & Hrun & _ & Hc & Ha' & _ & _ & _ & _ & Hfr & _).
  exists h'. split; [done|].
  assert (l' ≠ a) as Hla.
  { destruct (_ansatz f) as [a'|]; [destruct Ha' as [-> _]|destruct Ha'];
      congruence. }
  destruct (decide (l' = c)) as [->|Hlc].
  - destruct (_initial_state f) as [c'|]; destruct Hc; congruence.
  - by rewrite Hfr.
Qed.

(** X4. What a successful [get_solver] call creates: the store after the
    call holds the objects it held before, the ansatz installed on the
    solver and that ansatz' initial state, and nothing else. The initial
    state is a new object exactly when the factory has no initial-state
    override, and the ansatz is one exactly when it has no ansatz
    override: with both overrides set the call creates no object, with
    none it creates two. *)
Theorem get_solver_new_objects h self f p l qc :
  h !! self = Some (OFactory f) → well_typed h self = true →
  num_modals_per_mode (basis p) = Seq l →
  ∃ h' a x c,
    get_solver self p qc h = (Ok (_vqe f), h')
    ∧ solver_ansatz h' (_vqe f) = Some a
    ∧ ansatz_at h' a = Some x
    ∧ initial_state x = Some c
    ∧ a ≠ c
    ∧ dom h' = dom h ∪ {[ c ]} ∪ {[ a ]}
    ∧ (c ∈ dom h ↔ is_Some (_initial_state f))
    ∧ (a ∈ dom h ↔ is_Some (_ansatz f)).
Proof.
  intros Hself Hwt Hl.
  destruct (well_typed_inv _ _ Hwt) as (f0 & v0 & E & _ & _ & Hct & Hst).
  assert (f0 = f) as -> by congruence.
  destruct (get_solver_exec h self f p l qc Hself Hwt Hl)
    as (h' & c & a & x0 & v & Hrun & Hv & Hc & Ha & Hac & Hx & Hv' & Hs
        & Hfr).
  eexists h', a, _, c. split; [done|].
  unfold solver_ansatz, ansatz_at, vqe_at. rewrite Hv', Hx. simpl.
  repeat split; try done.
  - apply set_eq. intros k.
    rewrite !elem_of_union, !elem_of_singleton, !elem_of_dom.
    destruct (decide (k = a)) as [->|Hka].
    { rewrite Hx. split; eauto. }
    destruct (decide (k = c)) as [->|Hkc].
    { assert (is_Some (h' !! c)) as Hsc.
      { destruct (_initial_state f) as [c'|]; destruct Hc as [Hc1 ->];
          [|eauto].
        subst c'. destruct (Hct c eq_refl) as [y ->]. eauto. }
      split; [intros _; left; by right | done]. }
    destruct (decide (k = _vqe f)) as [->|Hkv].
    { rewrite Hv, Hv'. split; eauto. }
    assert (h' !! k = h !! k → is_Some (h' !! k)
            ↔ (is_Some (h !! k) ∨ k = c) ∨ k = a) as Hsame.
    { intros ->. split; [intros ?; left; by left | by intros [[?|?]|?]]. }
    destruct (_initial_point f) as [| |s] eqn:Eip.
    + apply Hsame. by rewrite Hfr.
    + apply Hsame. by rewrite Hfr.
    + destruct (decide (k = s)) as [->|Hks].
      * destruct Hs as (z & -> & ->). split; eauto.
      * apply Hsame. rewrite Hfr; [done..|congruence].
  - intros Hin. apply elem_of_dom in Hin.
    destruct (_initial_state f) as [c'|]; [eauto|].
    destruct Hc as [Hn _]. rewrite Hn in Hin. by destruct Hin.
  - intros Hsome. apply elem_of_dom.
    destruct (_initial_state f) as [c'|]; [|by destruct Hsome].
    destruct Hc as [-> _]. destruct (Hct c' eq_refl) as [y ->]. eauto.
  - intros Hin. apply elem_of_dom in Hin.
    destruct (_ansatz f) as [a'|]; [eauto|].
    destruct Ha as [Hn _]. rewrite Hn in Hin. by destruct Hin.
  - intros Hsome. apply elem_of_dom.
    destruct (_ansatz f) as [a'|]; [|by destruct Hsome].
    destruct Ha as [-> ->]. eauto.
Qed.


(** X5. An ansatz set directly on the solver is overwritten (the note in
    the class docstring): after [factory.minimum_eigensolver.ansatz = u],
    for an ansatz object [u] that is not the factory's own, a
    [get_solver] call installs the factory's ansatz on the solver again -
    the override when there is one, else a new [UVCCSD] object - which is
    not [u]; the object [u] itself is left as it was. *)
Theorem solver_ansatz_set_directly_is_overwritten h self f u xu p l qc :
  h !! self = Some (OFactory f) → well_typed h self = true →
  h !! u = Some (OAnsatz xu) → _ansatz f ≠ Some u →
  num_modals_per_mode (basis p) = Seq l →
  ∃ h1 h' a x,
    set_vqe_ansatz (_vqe f) u h = (Ok tt, h1)
    ∧ solver_ansatz h1 (_vqe f) = Some u
    ∧ get_solver self p qc h1 = (Ok (_vqe f), h')
    ∧ solver_ansatz h' (_vqe f) = Some a
    ∧ a ≠ u
    ∧ ansatz_at h' a = Some x
    ∧ match _ansatz f with
      | Some a' => a = a'
      | None => h1 !! a = None ∧ cls x = UVCCSD
      end
    ∧ h' !! u = Some (OAnsatz xu).
Proof.
  intros Hself Hwt Hu Hne Hl.
  destruct (well_typed_inv _ _ Hwt) as (f0 & v & E & Hv & _).
  assert (f0 = f) as -> by congruence.
  assert (u ≠ _vqe f) as Huv by (intros ->; congruence).
  assert (self ≠ _vqe f) as Hsv by congruence.
  set (v1 := {| vqe_kwargs := vqe_kwargs v; vqe_ansatz := Some u;
                vqe_initial_point := vqe_initial_point v |}).
  set (h1 := <[_vqe f := OVQE v1]> h).
  assert (set_vqe_ansatz (_vqe f) u h = (Ok tt, h1)) as Hset.
  { unfold set_vqe_ansatz, bind, as_vqe, store. by rewrite Hv. }
  assert (h1 !! self = Some (OFactory f)) as Hself1.
  { unfold h1. by rewrite lookup_insert_ne. }
  assert (well_typed h1 self = true) as Hwt1
    by (by apply well_typed_insert_vqe).
  assert (h1 !! u = Some (OAnsatz xu)) as Hu1.
  { unfold h1. by rewrite lookup_insert_ne. }
  destruct (get_solver_full h1 self f p l qc Hself1 Hwt1 Hl)
    as (h' & c & a & x0 & v' & Hrun & _ & Hc & Ha & Hac & Hx & Hsa & _
        & Hfr & _).
  assert (a ≠ u) as Hau.
  { destruct (_ansatz f) as [a'|]; [destruct Ha as [-> _]|destruct Ha];
      congruence. }
  eexists h1, h', a, _. split; [done|]. split.
  { unfold solver_ansatz, vqe_at, h1. by rewrite lookup_insert_eq. }
  split; [done|]. split; [done|]. split; [done|].
  unfold ansatz_at. rewrite Hx. split; [done|]. split.
  - destruct (_ansatz f) as [a'|]; [by destruct Ha|].
    destruct Ha as [? ->]. done.
  - destruct (decide (u = c)) as [->|Huc].
    + destruct (_initial_state f) as [c'|]; destruct Hc; congruence.
    + rewrite Hfr; try done.
      intros Hip. destruct (well_typed_inv _ _ Hwt1)
        as (f1 & _ & E1 & _ & _ & _ & Hs1).
      assert (f1 = f) as -> by congruence.
      destruct (Hs1 u Hip) as [z Hz]. congruence.
Qed.

(** X6. The [ansatz] setter followed by [get_solver]. After
    [factory.ansatz = u], with [u] an ansatz object, the solver's ansatz is
    [u], reconfigured for the problem; after [factory.ansatz = None] it is a
    new [UVCCSD] object, whatever was set before, and an ansatz set
    before is not touched by that call. *)
Theorem ansatz_setter_then_get_solver h self f p l qc :
  h !! self = Some (OFactory f) → well_typed h self = true →
  num_modals_per_mode (basis p) = Seq l →
  (∀ u xu, h !! u = Some (OAnsatz xu) →
     ∃ h1 h' c,
       set_ansatz self (Some u) h = (Ok tt, h1)
       ∧ get_solver self p qc h1 = (Ok (_vqe f), h')
       ∧ solver_ansatz h' (_vqe f) = Some u
       ∧ h' !! u = Some (OAnsatz {| cls := cls xu;
                                    qubit_converter := Some qc;
                                    num_modals := Some l;
                                    initial_state := Some c |}))
  ∧ (∃ h1 h' a x,
       set_ansatz self None h = (Ok tt, h1)
       ∧ get_solver self p qc h1 = (Ok (_vqe f), h')
       ∧ solver_ansatz h' (_vqe f) = Some a
       ∧ h !! a = None
       ∧ ansatz_at h' a = Some x ∧ cls x = UVCCSD
       ∧ ∀ b xb, h !! b = Some (OAnsatz xb) → h' !! b = Some (OAnsatz xb)).
Proof.
  intros Hself Hwt Hl.
  destruct (well_typed_inv _ _ Hwt) as (f0 & v & E & Hv & Ha0 & Hc0 & Hs0).
  assert (f0 = f) as -> by congruence.
  split.
  - intros u xu Hu.
    set (f1 := {| _initial_state := _initial_state f;
                  _initial_point := _initial_point f;
                  _ansatz := Some u; _vqe := _vqe f |}).
    assert (self ≠ u) as Hsu by (intros <-; congruence).
    assert (well_typed (<[self := OFactory f1]> h) self = true) as Hwt1.
    { apply (well_typed_set_factory h self f f1); try done.
      intros a [= <-]. eauto. }
    destruct (get_solver_full _ self f1 p l qc (lookup_insert_eq _ _ _)
                Hwt1 Hl)
      as (h' & c & a & x0 & v' & Hrun & _ & _ & Ha & _ & Hx & Hsa & _).
    simpl in Ha. destruct Ha as [-> Hx0].
    rewrite lookup_insert_ne in Hx0 by done.
    assert (x0 = xu) as -> by congruence.
    exists (<[self := OFactory f1]> h), h', c.
    split; [by apply set_ansatz_spec|]. by repeat split.
  - set (f1 := {| _initial_state := _initial_state f;
                  _initial_point := _initial_point f;
                  _ansatz := None; _vqe := _vqe f |}).
    assert (well_typed (<[self := OFactory f1]> h) self = true) as Hwt1.
    { by apply (well_typed_set_factory h self f f1). }
    destruct (get_solver_full _ self f1 p l qc (lookup_insert_eq _ _ _)
                Hwt1 Hl)
      as (h' & c & a & x0 & v' & Hrun & _ & Hc & Ha & Hac & Hx & Hsa & _
          & Hfr & _).
    simpl in *. destruct Ha as [Hfresh ->].
    apply lookup_insert_None in Hfresh as [Hfresh Hsa'].
    eexists (<[self := OFactory f1]> h), h', a, _.
    split; [by apply set_ansatz_spec|].
    unfold ansatz_at. rewrite Hx. repeat split; try done.
    intros b xb Hb.
    assert (self ≠ b) as Hsb by (intros <-; congruence).
    assert (<[self := OFactory f1]> h !! b = Some (OAnsatz xb)) as Hb1
      by (by rewrite lookup_insert_ne).
    assert (b ≠ a) as Hba by (intros ->; congruence).
    destruct (decide (b = c)) as [->|Hbc].
    + destruct (_initial_state f) as [c'|]; destruct Hc as [Hc1 Hc2].
      * by rewrite Hc2.
      * congruence.
    + rewrite Hfr; try done.
      * intros ->. congruence.
      * intros Hip. destruct (Hs0 b Hip) as [z Hz]. congruence.
Qed.

(** X7. An initial point that is not a strategy, set through the setter,
    reaches the solver as it is: after [factory.initial_point = None] the
    solver's initial point is [None] (the setter, unlike the constructor,
    installs no default strategy), after [factory.initial_point = pt] for
    an array it is [pt]; in both cases no strategy object of the store is
    bound or changed by the [get_solver] call. *)
Theorem initial_point_setter_then_get_solver h self f p l qc :
  h !! self = Some (OFactory f) → well_typed h self = true →
  num_modals_per_mode (basis p) = Seq l →
  (∃ h1 h',
     set_initial_point self PyNone h = (Ok tt, h1)
     ∧ get_solver self p qc h1 = (Ok (_vqe f), h')
     ∧ solver_initial_point h' (_vqe f) = Some None
     ∧ ∀ s k, h !! s = Some (OInitialPoint k) →
              h' !! s = Some (OInitialPoint k))
  ∧ (∀ pt, ∃ h1 h',
       set_initial_point self (NdArray pt) h = (Ok tt, h1)
       ∧ get_solver self p qc h1 = (Ok (_vqe f), h')
       ∧ solver_initial_point h' (_vqe f) = Some (Some pt)
       ∧ ∀ s k, h !! s = Some (OInitialPoint k) →
                h' !! s = Some (OInitialPoint k)).
Proof.
  intros Hself Hwt Hl.
  destruct (well_typed_inv _ _ Hwt) as (f0 & v & E & Hv & Ha0 & Hc0 & Hs0).
  assert (f0 = f) as -> by congruence.
  assert (∀ ip, (∀ s, ip ≠ InitialPointRef s) →
     ∃ h1 h',
       set_initial_point self ip h = (Ok tt, h1)
       ∧ get_solver self p qc h1 = (Ok (_vqe f), h')
       ∧ solver_initial_point h' (_vqe f)
         = Some (match ip with NdArray pt => Some pt | _ => None end)
       ∧ ∀ s k, h !! s = Some (OInitialPoint k) →
                h' !! s = Some (OInitialPoint k)) as Hgen.
  { intros ip Hip.
    set (f1 := {| _initial_state := _initial_state f;
                  _initial_point := ip;
                  _ansatz := _ansatz f; _vqe := _vqe f |}).
    assert (well_typed (<[self := OFactory f1]> h) self = true) as Hwt1.
    { apply (well_typed_set_factory h self f f1); try done.
      intros s Es. simpl in Es. by destruct (Hip s). }
    destruct (get_solver_full _ self f1 p l qc (lookup_insert_eq _ _ _)
                Hwt1 Hl)
      as (h' & c & a & x0 & v' & Hrun & _ & Hc & Ha & Hac & Hx & Hsa & Hsp
          & Hfr & _).
    simpl in *.
    exists (<[self := OFactory f1]> h), h'.
    split; [by apply set_initial_point_spec|]. split; [done|]. split.
    { rewrite Hsp. by destruct ip as [| |s]; [| |destruct (Hip s)]. }
    intros s k Hs.
    assert (self ≠ s) as Hss by (intros <-; congruence).
    assert (<[self := OFactory f1]> h !! s = Some (OInitialPoint k)) as Hs1
      by (by rewrite lookup_insert_ne).
    assert (s ≠ a) as Hsa1.
    { destruct (_ansatz f) as [a'|].
      - destruct Ha as [-> Ha]. intros ->. congruence.
      - destruct Ha as [Ha _]. intros ->. congruence. }
    assert (s ≠ _vqe f) as Hsv by (intros ->; congruence).
    destruct (decide (s = c)) as [->|Hsc].
    - destruct (_initial_state f) as [c'|]; destruct Hc as [Hc1 Hc2].
      + by rewrite Hc2.
      + congruence.
    - by rewrite Hfr. }
  split.
  - by apply (Hgen PyNone).
  - intros pt. by apply (Hgen (NdArray pt)).
Qed.

(** X8. The last call wins. Two successive [get_solver] calls on a factory
    with a custom ansatz return the same solver, with the same ansatz
    object installed; after the second call that object carries the
    converter and the layout of the second problem, so a solver handle
    kept from the first call is configured for the second. *)
Theorem second_call_reconfigures_first h self f a x p1 l1 qc1 p2 l2 qc2 :
  h !! self = Some (OFactory f) → well_typed h self = true →
  _ansatz f = Some a → h !! a = Some (OAnsatz x) →
  num_modals_per_mode (basis p1) = Seq l1 →
  num_modals_per_mode (basis p2) = Seq l2 →
  ∃ h1 h2 c1 c2,
    get_solver self p1 qc1 h = (Ok (_vqe f), h1)
    ∧ solver_ansatz h1 (_vqe f) = Some a
    ∧ h1 !! a = Some (OAnsatz {| cls := cls x;
                                 qubit_converter := Some qc1;
                                 num_modals := Some l1;
                                 initial_state := Some c1 |})
    ∧ get_solver self p2 qc2 h1 = (Ok (_vqe f), h2)
    ∧ solver_ansatz h2 (_vqe f) = Some a
    ∧ h2 !! a = Some (OAnsatz {| cls := cls x;
                                 qubit_converter := Some qc2;
                                 num_modals := Some l2;
                                 initial_state := Some c2 |}).
Proof.
  intros Hself Hwt Ha Hx Hl1 Hl2.
  destruct (get_solver_full h self f p1 l1 qc1 Hself Hwt Hl1)
    as (h1 & c1 & a1 & x1 & v1 & Hrun1 & _ & _ & Ha1 & _ & Hx1 & Hsa1 & _
        & _ & Hself1 & Hwt1).
  rewrite Ha in Ha1. destruct Ha1 as [-> Hx0].
  assert (x1 = x) as -> by congruence.
  destruct (get_solver_full h1 self f p2 l2 qc2 Hself1 Hwt1 Hl2)
    as (h2 & c2 & a2 & x2 & v2 & Hrun2 & _ & _ & Ha2 & _ & Hx2 & Hsa2 & _).
  rewrite Ha in Ha2. destruct Ha2 as [-> Hx0'].
  rewrite Hx1 in Hx0'. injection Hx0' as <-.
  by exists h1, h2, c1, c2.
Qed.


(** X9. Two factories constructed with default arguments share nothing:
    each has its own solver and its own default initial-point strategy
    (the default is created inside the constructor, once per factory), and
    a [get_solver] call on the first leaves the second factory, its solver
    and its strategy - still unbound - as they were. *)
Theorem default_factories_share_nothing kw1 kw2 h0 p l qc :
  num_modals_per_mode (basis p) = Seq l →
  ∃ self1 h1 self2 h2 f1 f2 s1 s2 h3,
    __init__ PyNone None None kw1 h0 = (Ok self1, h1)
    ∧ __init__ PyNone None None kw2 h1 = (Ok self2, h2)
    ∧ h2 !! self1 = Some (OFactory f1)
    ∧ h2 !! self2 = Some (OFactory f2)
    ∧ self1 ≠ self2
    ∧ _vqe f1 ≠ _vqe f2
    ∧ _initial_point f1 = InitialPointRef s1
    ∧ _initial_point f2 = InitialPointRef s2
    ∧ s1 ≠ s2
    ∧ get_solver self1 p qc h2 = (Ok (_vqe f1), h3)
    ∧ h3 !! self2 = Some (OFactory f2)
    ∧ h3 !! _vqe f2 = Some (OVQE (VQE kw2))
    ∧ h3 !! s2 = Some (OInitialPoint new_VSCFInitialPoint).
Proof.
  intros Hl.
  destruct (init_spec PyNone None None kw1 h0)
    as (self1 & h1 & v1 & Hrun1 & _ & Hv1 & _ & _ & s1 & _ & _ & _ & Hs1
        & Hf1 & _).
  destruct (init_spec PyNone None None kw2 h1)
    as (self2 & h2 & v2 & Hrun2 & Hv2n & Hv2 & Hself2n & Hne2 & s2 & Hs2n
        & Hsv2 & Hss2 & Hs2 & Hf2 & Hfr2).
  assert (∀ k o, h1 !! k = Some o → h2 !! k = Some o) as Hkeep.
  { intros k o Hk. rewrite Hfr2; [done|congruence..]. }
  pose proof (Hkeep _ _ Hf1) as Hf1'.
  pose proof (Hkeep _ _ Hv1) as Hv1'.
  pose proof (Hkeep _ _ Hs1) as Hs1'.
  assert (well_typed h2 self1 = true) as Hwt.
  { eapply well_typed_intro; [exact Hf1'|exact Hv1'|done|done|].
    intros s [= <-]. eauto. }
  destruct (get_solver_full h2 self1 _ p l qc Hf1' Hwt Hl)
    as (h3 & c & a & x0 & v & Hrun3 & _ & Hc & Ha & _ & _ & _ & _ & Hfr & _).
  simpl in *. destruct Hc as [Hc _], Ha as [Ha _].
  eexists self1, h1, self2, h2, _, _, s1, s2, h3.
  repeat split; try done; simpl.
  - congruence.
  - congruence.
  - congruence.
  - rewrite Hfr; [done|congruence..].
  - rewrite Hfr; [done|congruence..].
  - rewrite Hfr; [done|congruence..].
Qed.


(** ** The regression check *)

Lemma components_agree_nil_r e : components_agree e [] = true.
Proof. by destruct e. Qed.

Lemma components_agree_cons s e t c :
  components_agree (s :: e) (t :: c) = term_agrees s t && components_agree e c.
Proof. reflexivity. Qed.

(** The comparison is positional, over the positions both lists have. *)
Lemma components_agree_lookup e c :
  components_agree e c = true ↔
  ∀ i s t, e !! i = Some s → c !! i = Some t → term_agrees s t = true.
Proof.
  revert c. induction e as [|s e IH]; intros [|t c].
  - split; [intros _ i s t [=] | done].
  - split; [intros _ i s' t' [=] | done].
  - split; [intros _ i s' t' _ [=] | intros _; apply components_agree_nil_r].
  - rewrite components_agree_cons, andb_true_iff, IH. split.
    + intros [Hst H] [|i] s' t'; simpl.
      * by intros [= <-] [= <-].
      * apply H.
    + intros H. split; [by apply (H 0) | intros i; apply (H (S i))].
Qed.

Lemma components_agree_take e c :
  components_agree e c
  = components_agree (take (length c) e) (take (length e) c).
Proof.
  revert c. induction e as [|s e IH]; intros [|t c]; try reflexivity.
  simpl. rewrite !components_agree_cons. by rewrite <- IH.
Qed.

Lemma components_agree_take_r e c :
  components_agree e c = components_agree e (take (length e) c).
Proof.
  revert c. induction e as [|s e IH]; intros [|t c]; try reflexivity.
  simpl. rewrite !components_agree_cons. by rewrite <- IH.
Qed.

Lemma components_agree_app_r e c extra :
  length e ≤ length c →
  components_agree e (c ++ extra) = components_agree e c.
Proof.
  revert c. induction e as [|s e IH]; intros [|t c] Hlen;
    simpl in *; try reflexivity; try lia.
  rewrite !components_agree_cons. rewrite IH by lia. done.
Qed.

Lemma components_agree_app_l e c extra :
  length c ≤ length e →
  components_agree (e ++ extra) c = components_agree e c.
Proof.
  revert c. induction e as [|s e IH]; intros [|t c] Hlen;
    simpl in *; try reflexivity; try lia.
  - by destruct extra.
  - rewrite !components_agree_cons. rewrite IH by lia. done.
Qed.

Lemma subtests_pass n e op (aux : gmap string py_object) :
  passes (subtests n e op aux) = true ↔
    size aux = n
    ∧ (∀ k o, aux !! k = Some o → isinstance_SecondQuantizedOp o = true)
    ∧ (∀ i s t, e !! i = Some s → to_list op !! i = Some t →
         s.1 = t.1 ∧ np_isclose (np_abs s.2) (np_abs t.2) = true).
Proof.
  unfold passes, subtests. simpl.
  rewrite !andb_true_iff, bool_decide_eq_true, components_agree_lookup.
  rewrite forallb_forall.
  split.
  - intros (Hn & Hty & Hc & _). repeat split; try done.
    + intros k o Hk. apply Hty. apply list_elem_of_In.
      apply list_elem_of_fmap. exists (k, o). split; [done|].
      by apply elem_of_map_to_list.
    + specialize (Hc i s t H H0). unfold term_agrees in Hc.
      apply andb_true_iff in Hc as [Hc _]. by apply bool_decide_eq_true in Hc.
    + specialize (Hc i s t H H0). unfold term_agrees in Hc.
      by apply andb_true_iff in Hc as [_ Hc].
  - intros (Hn & Hty & Hc). repeat split; try done.
    + intros o Ho. apply list_elem_of_In, list_elem_of_fmap in Ho
        as ([k o'] & -> & Hk).
      apply elem_of_map_to_list in Hk. by eapply Hty.
    + intros i s t Hs Ht. destruct (Hc i s t Hs Ht) as [H1 H2].
      unfold term_agrees. by rewrite H2, bool_decide_true.
Qed.

(** C8. The regression check on the untransformed H2/631g problem makes
    three assertions, and passes exactly when the dictionary of auxiliary
    operators has 6 entries, every one of its values is a
    [SecondQuantizedOp], and at every position that both the fixture
    [H2_631g_ferm_op_two_ints] and the term list of the computed operator
    have, the labels are equal and the absolute values of the coefficients
    are close in the sense of [np.isclose]. *)
Theorem test_without_transformers_asserts :
  let expected :=
    read_expected_file
      (get_resource_path "H2_631g_ferm_op_two_ints"
                         "second_q/problems/resources") in
  let computed := second_q_ops (PySCFDriver_run "631g") in
  length test_second_q_ops_without_transformers = 3
  ∧ (passes test_second_q_ops_without_transformers = true ↔
       size computed.2 = 6
       ∧ (∀ k o, computed.2 !! k = Some o →
                 isinstance_SecondQuantizedOp o = true)
       ∧ (∀ i s t, expected !! i = Some s →
                   to_list computed.1 !! i = Some t →
                   s.1 = t.1
                   ∧ np_isclose (np_abs s.2) (np_abs t.2) = true)).
Proof.
  unfold test_second_q_ops_without_transformers. simpl.
  destruct (second_q_ops (PySCFDriver_run "631g")) as [op aux]. simpl.
  split; [reflexivity | apply subtests_pass].
Qed.

(** C9. The term-by-term comparison runs over the positional zip of the
    fixture and the computed term list: it compares the two lists cut to
    the length of the shorter one, so terms appended to the longer list
    change nothing, and against an empty list it holds; and the three
    sub-tests of both tests depend on the primary operator only through
    the first [length expected] terms of its list, whose length is not
    checked. *)
Theorem zip_ignores_surplus_terms :
  (∀ e c, components_agree e c
          = components_agree (take (length c) e) (take (length e) c))
  ∧ (∀ e c extra, length e ≤ length c →
       components_agree e (c ++ extra) = components_agree e c)
  ∧ (∀ e c extra, length c ≤ length e →
       components_agree (e ++ extra) c = components_agree e c)
  ∧ (∀ e, components_agree e [] = true)
  ∧ (∀ c, components_agree [] c = true)
  ∧ (∀ n e op op' aux,
       take (length e) (to_list op) = take (length e) (to_list op') →
       subtests n e op aux = subtests n e op' aux).
Proof.
  repeat split.
  - apply components_agree_take.
  - apply components_agree_app_r.
  - apply components_agree_app_l.
  - apply components_agree_nil_r.
  - intros n e op op' aux H. unfold subtests. do 3 f_equal.
    rewrite (components_agree_take_r e (to_list op)).
    rewrite (components_agree_take_r e (to_list op')).
    by rewrite H.
Qed.

(** X10. The regression check on the problem reduced by the active-space
    transformer (2 electrons, 2 orbitals) makes the same three assertions
    against the fixture [H2_631g_ferm_op_active_space]: it passes exactly
    when the dictionary of auxiliary operators of the transformed problem
    has 6 entries, all its values are [SecondQuantizedOp] instances, and
    at every common position labels are equal and coefficient magnitudes
    are close. *)
Theorem test_with_active_space_asserts :
  let expected :=
    read_expected_file
      (get_resource_path "H2_631g_ferm_op_active_space"
                         "second_q/problems/resources") in
  let computed :=
    second_q_ops (ActiveSpaceTransformer_transform 2 2
                    (PySCFDriver_run "631g")) in
  length test_second_q_ops_with_active_space = 3
  ∧ (passes test_second_q_ops_with_active_space = true ↔
       size computed.2 = 6
       ∧ (∀ k o, computed.2 !! k = Some o →
                 isinstance_SecondQuantizedOp o = true)
       ∧ (∀ i s t, expected !! i = Some s →
                   to_list computed.1 !! i = Some t →
                   s.1 = t.1
                   ∧ np_isclose (np_abs s.2) (np_abs t.2) = true)).
Proof.
  unfold test_second_q_ops_with_active_space. simpl.
  destruct (second_q_ops _) as [op aux]. simpl.
  split; [reflexivity | apply subtests_pass].
Qed.

(** X11. The comparison is sensitive to order: if at some position that
    both lists have the labels differ, or the magnitudes are not close,
    the component check fails whatever the other terms are - so the same
    terms in another order fail the test - and with it the whole test. *)
Theorem mismatch_at_a_position_fails e c i s t :
  e !! i = Some s → c !! i = Some t →
  s.1 ≠ t.1 ∨ np_isclose (np_abs s.2) (np_abs t.2) = false →
  components_agree e c = false
  ∧ ∀ n op aux, to_list op = c → passes (subtests n e op aux) = false.
Proof.
  intros Hs Ht Hbad.
  assert (components_agree e c = false) as Hfalse.
  { apply not_true_is_false. intros Hok.
    pose proof (proj1 (components_agree_lookup e c) Hok i s t Hs Ht) as H.
    unfold term_agrees in H. apply andb_true_iff in H as [H1 H2].
    apply bool_decide_eq_true in H1. destruct Hbad; congruence. }
  split; [done|].
  intros n op aux <-. unfold passes, subtests. simpl.
  rewrite Hfalse. by rewrite !andb_false_r.
Qed.

(** X12. Only the labels and the magnitudes of the computed terms are
    looked at: two computed term lists with the same labels and the same
    [np.abs] of the coefficients, position by position, get the same
    verdict against any fixture. A change of sign or phase of a
    coefficient is therefore not detected. *)
Theorem only_magnitudes_are_compared e c c' :
  (λ t : string * coefficient, (t.1, np_abs t.2)) <$> c
  = (λ t : string * coefficient, (t.1, np_abs t.2)) <$> c' →
  components_agree e c = components_agree e c'.
Proof.
  revert c c'. induction e as [|s e IH]; intros [|t c] [|t' c'] H;
    try done.
  simpl in H. injection H as H1 H2 H3.
  rewrite !components_agree_cons. rewrite (IH c c' H3).
  unfold term_agrees. by rewrite H1, H2.
Qed.

End qiskit_nature.

(** ** Concrete runs *)

(** A qubit converter and the solver options are named by strings, arrays
    are lists of integers; the solver starts without ansatz and initial
    point, and every strategy yields the all-zero vector with one entry
    per mode. *)
Definition ex_VQE (kw : string) : @vqe string (list Z) :=
  {| vqe_kwargs := kw; vqe_ansatz := None; vqe_initial_point := None |}.

Definition ex_compute (k : ip_class)
    (y : @ansatz_view string string (list Z)) : list Z :=
  replicate (length (default [] (view_num_modals y))) 0%Z.

Definition ex_problem : VibrationalStructureProblem :=
  {| basis := {| num_modals_per_mode := Seq [2; 2; 2]%Z |}; num_modes := 3 |}.

(** [VQEUVCCFactory(optimizer=...)] in an empty store: the strategy is
    object 1, the solver object 2, the factory object 3. *)
Definition ex_default_store : gmap loc (@obj string string (list Z)) :=
  (__init__ ex_VQE PyNone None None "SLSQP" ∅).2.

Definition ex_default_factory : @factory (list Z) :=
  {| _initial_state := None; _initial_point := InitialPointRef 1;
     _ansatz := None; _vqe := 2 |}.

(** [VQEUVCCFactory(ansatz=UVCC())]: the caller's ansatz is object 1, the
    strategy object 2, the solver object 3, the factory object 4. *)
Definition ex_UVCC : @ansatz string :=
  {| cls := UVCC; qubit_converter := None; num_modals := None;
     initial_state := None |}.

Definition ex_custom_store : gmap loc (@obj string string (list Z)) :=
  (__init__ ex_VQE PyNone (Some 1%positive) None "SLSQP"
            {[ 1%positive := OAnsatz ex_UVCC ]}).2.

Definition ex_custom_factory : @factory (list Z) :=
  {| _initial_state := None; _initial_point := InitialPointRef 2;
     _ansatz := Some 1%positive; _vqe := 3 |}.

Example ex_scalar_4_3 :
  get_solver ex_compute 3%positive
    {| basis := {| num_modals_per_mode := Scalar 4 |}; num_modes := 3 |}
    "jordan_wigner" ex_default_store
  = (Raise TypeError, ex_default_store).
Proof. reflexivity. Qed.

Example ex_sequence_4_4_4 :
  (get_solver ex_compute 3%positive
     {| basis := {| num_modals_per_mode := Seq [4; 4; 4]%Z |};
        num_modes := 3 |}
     "jordan_wigner" ex_default_store).1
  = Ok 2%positive.
Proof. vm_compute. reflexivity. Qed.

Example ex_solver_configured :
  vqe_at (get_solver ex_compute 3%positive ex_problem "jordan_wigner"
            ex_default_store).2 2%positive
  = Some {| vqe_kwargs := "SLSQP"; vqe_ansatz := Some 5%positive;
            vqe_initial_point := Some [0; 0; 0]%Z |}.
Proof. vm_compute. reflexivity. Qed.

Lemma one_solver_per_factory_witness :
  well_typed ex_default_store 3 = true
  ∧ ∃ h' a x c v,
      get_solver ex_compute 3%positive ex_problem "jordan_wigner"
                 ex_default_store = (Ok 2%positive, h')
      ∧ is_vqe (h' !! 2%positive) = true
      ∧ ex_default_store !! 2%positive = Some (OVQE v)
      ∧ h' !! 2%positive
        = Some (OVQE {| vqe_kwargs := vqe_kwargs v;
                        vqe_ansatz := Some a;
                        vqe_initial_point :=
                          resolved_point ex_compute ex_default_store
                            (InitialPointRef 1%positive) (view h' x) |})
      ∧ h' !! a = Some (OAnsatz x)
      ∧ qubit_converter x = Some "jordan_wigner"
      ∧ num_modals x = Some [2; 2; 2]%Z
      ∧ initial_state x = Some c
      ∧ (ex_default_store !! a = None ∧ cls x = UVCCSD)
      ∧ (ex_default_store !! c = None
         ∧ h' !! c = Some (OCircuit (VSCF [2; 2; 2]%Z))).
Proof.
  split; [vm_compute; reflexivity|].
  apply (proj2 (proj2 (proj2 (proj2 (proj2
           (one_solver_per_factory ex_VQE ex_compute)))))
           3%positive ex_default_factory ex_problem [2; 2; 2]%Z);
    vm_compute; reflexivity.
Defined.

Lemma custom_ansatz_mutated_in_place_witness :
  well_typed ex_custom_store 4 = true
  ∧ ∃ h' c,
      get_solver ex_compute 4%positive ex_problem "jordan_wigner"
                 ex_custom_store = (Ok 3%positive, h')
      ∧ solver_ansatz h' 3%positive = Some 1%positive
      ∧ h' !! 1%positive
        = Some (OAnsatz {| cls := UVCC;
                           qubit_converter := Some "jordan_wigner";
                           num_modals := Some [2; 2; 2]%Z;
                           initial_state := Some c |})
      ∧ ex_custom_store !! c = None
      ∧ h' !! c = Some (OCircuit (VSCF [2; 2; 2]%Z)).
Proof.
  split; [vm_compute; reflexivity|].
  apply (custom_ansatz_mutated_in_place ex_compute ex_custom_store 4%positive
           ex_custom_factory 1%positive ex_UVCC ex_problem [2; 2; 2]%Z
           "jordan_wigner");
    vm_compute; reflexivity.
Defined.

Lemma initial_point_pipeline_witness :
  well_typed ex_default_store 3 = true
  ∧ ∃ h' a x,
      get_solver ex_compute 3%positive ex_problem "jordan_wigner"
                 ex_default_store = (Ok 2%positive, h')
      ∧ solver_ansatz h' 2%positive = Some a
      ∧ ansatz_at h' a = Some x
      ∧ ∃ k, strategy_at ex_default_store 1%positive = Some k
             ∧ strategy_at h' 1%positive
               = Some {| ip_cls := ip_cls k; ip_ansatz := Some a |}
             ∧ solver_initial_point h' 2%positive
               = Some (Some (ex_compute (ip_cls k) (view h' x))).
Proof.
  split; [vm_compute; reflexivity|].
  apply (proj2 (proj2 (initial_point_pipeline ex_VQE ex_compute))
           ex_default_store 3%positive ex_default_factory ex_problem
           [2; 2; 2]%Z "jordan_wigner");
    vm_compute; reflexivity.
Defined.

Lemma default_or_override_witness :
  well_typed ex_default_store 3 = true
  ∧ ∃ h' a x c,
      get_solver ex_compute 3%positive ex_problem "jordan_wigner"
                 ex_default_store = (Ok 2%positive, h')
      ∧ solver_ansatz h' 2%positive = Some a
      ∧ ansatz_at h' a = Some x
      ∧ initial_state x = Some c
      ∧ (ex_default_store !! c = None
         ∧ h' !! c = Some (OCircuit (VSCF [2; 2; 2]%Z)))
      ∧ (ex_default_store !! a = None ∧ cls x = UVCCSD).
Proof.
  split; [vm_compute; reflexivity|].
  apply (default_or_override ex_compute ex_default_store 3%positive
           ex_default_factory ex_problem [2; 2; 2]%Z "jordan_wigner");
    vm_compute; reflexivity.
Defined.

Lemma default_ansatz_not_cached_witness :
  well_typed ex_default_store 3 = true
  ∧ ∃ h1 h2 a1 a2 x1 x2 f1,
      get_solver ex_compute 3%positive ex_problem "jordan_wigner"
                 ex_default_store = (Ok 2%positive, h1)
      ∧ factory_at h1 3%positive = Some f1 ∧ _ansatz f1 = None
      ∧ solver_ansatz h1 2%positive = Some a1
      ∧ ex_default_store !! a1 = None
      ∧ h1 !! a1 = Some (OAnsatz x1) ∧ cls x1 = UVCCSD
      ∧ get_solver ex_compute 3%positive ex_problem "parity" h1
        = (Ok 2%positive, h2)
      ∧ factory_at h2 3%positive = Some f1
      ∧ solver_ansatz h2 2%positive = Some a2
      ∧ h1 !! a2 = None
      ∧ h2 !! a2 = Some (OAnsatz x2) ∧ cls x2 = UVCCSD
      ∧ a2 ≠ a1.
Proof.
  split; [vm_compute; reflexivity|].
  apply (default_ansatz_not_cached ex_compute ex_default_store 3%positive
           ex_default_factory ex_problem [2; 2; 2]%Z "jordan_wigner"
           ex_problem [2; 2; 2]%Z "parity");
    vm_compute; reflexivity.
Defined.

(** Terms with integer coefficients, compared by exact equality of the
    absolute values; the operator is its own term list. *)
Definition ex_expected : list (string * Z) :=
  [("+_0 -_0", (-3)%Z); ("+_1 -_1", 2%Z)].

Definition ex_computed : list (string * Z) :=
  [("+_0 -_0", 3%Z); ("+_1 -_1", (-2)%Z)].

Definition ex_aux : gmap string bool :=
  list_to_map [("ParticleNumber", true); ("AngularMomentum", true);
               ("Magnetization", true); ("DipoleMomentX", true);
               ("DipoleMomentY", true); ("DipoleMomentZ", true)].

Lemma test_without_transformers_asserts_witness :
  size ex_aux = 6
  ∧ (∀ k o, ex_aux !! k = Some o → id o = true)
  ∧ (∀ i s t, ex_expected !! i = Some s → ex_computed !! i = Some t →
              s.1 = t.1 ∧ Z.eqb (Z.abs s.2) (Z.abs t.2) = true).
Proof.
  apply (proj1 (proj2 (test_without_transformers_asserts
                         Z.abs Z.eqb id (λ name dir, dir +:+ "/" +:+ name)
                         (λ _, ex_expected) (λ basis : string, basis)
                         (λ _, (ex_computed, ex_aux)) id))).
  vm_compute. reflexivity.
Defined.

Lemma zip_ignores_surplus_terms_witness :
  components_agree Z.abs Z.eqb ex_expected
    (ex_computed ++ [("+_2 -_2", 7%Z)]) = true.
Proof.
  rewrite (proj1 (proj2 (zip_ignores_surplus_terms
                           Z.abs Z.eqb (@id bool) (@id (list (string * Z)))))
             ex_expected ex_computed [("+_2 -_2", 7%Z)]).
  - vm_compute. reflexivity.
  - vm_compute. lia.
Defined.

(** ** Concrete runs of the further properties *)

Lemma setter_getter_round_trip_witness :
  ∃ h1, set_ansatz 3%positive (Some 7%positive) ex_default_store = (Ok tt, h1)
        ∧ get_ansatz 3%positive h1 = (Ok (Some 7%positive), h1)
        ∧ get_initial_point 3%positive h1
          = (Ok (InitialPointRef 1%positive), h1)
        ∧ minimum_eigensolver 3%positive h1 = (Ok 2%positive, h1).
Proof.
  destruct (setter_getter_round_trip 3%positive ex_default_factory
              ex_default_store (Some 7%positive) None PyNone)
    as ((h1 & H1 & H2 & _ & H3 & H4 & _) & _).
  - vm_compute. reflexivity.
  - exists h1. repeat split; assumption.
Defined.

Lemma get_solver_leaves_other_objects_witness :
  ∃ h', get_solver ex_compute 4%positive ex_problem "jordan_wigner"
                   ex_custom_store = (Ok 3%positive, h')
        ∧ h' !! 4%positive = Some (OFactory ex_custom_factory).
Proof.
  apply (get_solver_leaves_other_objects ex_compute ex_custom_store
           4%positive ex_custom_factory ex_problem [2; 2; 2]%Z
           "jordan_wigner" 4%positive (OFactory ex_custom_factory));
    try (vm_compute; reflexivity); vm_compute; discriminate.
Defined.

Lemma get_solver_new_objects_witness :
  ∃ h' a x c,
    get_solver ex_compute 3%positive ex_problem "jordan_wigner"
               ex_default_store = (Ok 2%positive, h')
    ∧ solver_ansatz h' 2%positive = Some a
    ∧ ansatz_at h' a = Some x
    ∧ initial_state x = Some c
    ∧ a ≠ c
    ∧ dom h' = dom ex_default_store ∪ {[ c ]} ∪ {[ a ]}
    ∧ (c ∈ dom ex_default_store ↔ is_Some (@None loc))
    ∧ (a ∈ dom ex_default_store ↔ is_Some (@None loc)).
Proof.
  apply (get_solver_new_objects ex_compute ex_default_store 3%positive
           ex_default_factory ex_problem [2; 2; 2]%Z "jordan_wigner");
    vm_compute; reflexivity.
Defined.

(** The store of [ex_custom_store] with one more ansatz, object 9. *)
Definition ex_two_ansatz_store : gmap loc (@obj string string (list Z)) :=
  <[ 9%positive := OAnsatz ex_UVCC ]> ex_custom_store.

Lemma solver_ansatz_set_directly_is_overwritten_witness :
  ∃ h1 h' a x,
    set_vqe_ansatz 3%positive 9%positive ex_two_ansatz_store = (Ok tt, h1)
    ∧ solver_ansatz h1 3%positive = Some 9%positive
    ∧ get_solver ex_compute 4%positive ex_problem "jordan_wigner" h1
      = (Ok 3%positive, h')
    ∧ solver_ansatz h' 3%positive = Some a
    ∧ a ≠ 9%positive
    ∧ ansatz_at h' a = Some x
    ∧ a = 1%positive
    ∧ h' !! 9%positive = Some (OAnsatz ex_UVCC).
Proof.
  apply (solver_ansatz_set_directly_is_overwritten ex_compute
           ex_two_ansatz_store 4%positive ex_custom_factory 9%positive
           ex_UVCC ex_problem [2; 2; 2]%Z "jordan_wigner");
    try (vm_compute; reflexivity); vm_compute; discriminate.
Defined.

Lemma ansatz_setter_then_get_solver_witness :
  ∃ h1 h' a x,
    set_ansatz 4%positive None ex_custom_store = (Ok tt, h1)
    ∧ get_solver ex_compute 4%positive ex_problem "jordan_wigner" h1
      = (Ok 3%positive, h')
    ∧ solver_ansatz h' 3%positive = Some a
    ∧ ex_custom_store !! a = None
    ∧ ansatz_at h' a = Some x ∧ cls x = UVCCSD
    ∧ ∀ b xb, ex_custom_store !! b = Some (OAnsatz xb) →
              h' !! b = Some (OAnsatz xb).
Proof.
  apply (proj2 (ansatz_setter_then_get_solver ex_compute ex_custom_store
                  4%positive ex_custom_factory ex_problem [2; 2; 2]%Z
                  "jordan_wigner" eq_refl eq_refl eq_refl)).
Defined.

Lemma initial_point_setter_then_get_solver_witness :
  ∃ h1 h',
    set_initial_point 3%positive PyNone ex_default_store = (Ok tt, h1)
    ∧ get_solver ex_compute 3%positive ex_problem "jordan_wigner" h1
      = (Ok 2%positive, h')
    ∧ solver_initial_point h' 2%positive = Some None
    ∧ ∀ s k, ex_default_store !! s = Some (OInitialPoint k) →
             h' !! s = Some (OInitialPoint k).
Proof.
  apply (proj1 (initial_point_setter_then_get_solver ex_compute
                  ex_default_store 3%positive ex_default_factory ex_problem
                  [2; 2; 2]%Z "jordan_wigner" eq_refl eq_refl eq_refl)).
Defined.

Definition ex_problem' : VibrationalStructureProblem :=
  {| basis := {| num_modals_per_mode := Seq [3; 3]%Z |}; num_modes := 2 |}.

Lemma second_call_reconfigures_first_witness :
  ∃ h1 h2 c1 c2,
    get_solver ex_compute 4%positive ex_problem "jordan_wigner"
               ex_custom_store = (Ok 3%positive, h1)
    ∧ solver_ansatz h1 3%positive = Some 1%positive
    ∧ h1 !! 1%positive
      = Some (OAnsatz {| cls := UVCC;
                         qubit_converter := Some "jordan_wigner";
                         num_modals := Some [2; 2; 2]%Z;
                         initial_state := Some c1 |})
    ∧ get_solver ex_compute 4%positive ex_problem' "parity" h1
      = (Ok 3%positive, h2)
    ∧ solver_ansatz h2 3%positive = Some 1%positive
    ∧ h2 !! 1%positive
      = Some (OAnsatz {| cls := UVCC;
                         qubit_converter := Some "parity";
                         num_modals := Some [3; 3]%Z;
                         initial_state := Some c2 |}).
Proof.
  apply (second_call_reconfigures_first ex_compute ex_custom_store 4%positive
           ex_custom_factory 1%positive ex_UVCC ex_problem [2; 2; 2]%Z
           "jordan_wigner" ex_problem' [3; 3]%Z "parity");
    vm_compute; reflexivity.
Defined.

Lemma default_factories_share_nothing_witness :
  ∃ self1 h1 self2 h2 f1 f2 s1 s2 h3,
    __init__ ex_VQE PyNone None None "SLSQP" ∅ = (Ok self1, h1)
    ∧ __init__ ex_VQE PyNone None None "COBYLA" h1 = (Ok self2, h2)
    ∧ h2 !! self1 = Some (OFactory f1)
    ∧ h2 !! self2 = Some (OFactory f2)
    ∧ self1 ≠ self2
    ∧ _vqe f1 ≠ _vqe f2
    ∧ _initial_point f1 = InitialPointRef s1
    ∧ _initial_point f2 = InitialPointRef s2
    ∧ s1 ≠ s2
    ∧ get_solver ex_compute self1 ex_problem "jordan_wigner" h2
      = (Ok (_vqe f1), h3)
    ∧ h3 !! self2 = Some (OFactory f2)
    ∧ h3 !! _vqe f2 = Some (OVQE (ex_VQE "COBYLA"))
    ∧ h3 !! s2 = Some (OInitialPoint new_VSCFInitialPoint).
Proof.
  apply (default_factories_share_nothing ex_VQE ex_compute "SLSQP" "COBYLA"
           ∅ ex_problem [2; 2; 2]%Z "jordan_wigner" eq_refl).
Defined.

(** The computed terms of [ex_computed] in the other order. *)
Definition ex_swapped : list (string * Z) :=
  [("+_1 -_1", (-2)%Z); ("+_0 -_0", 3%Z)].

Lemma mismatch_at_a_position_fails_witness :
  components_agree Z.abs Z.eqb ex_expected ex_swapped = false
  ∧ ∀ n (op : list (string * Z)) (aux : gmap string bool),
      id op = ex_swapped →
      passes (subtests Z.abs Z.eqb id id n ex_expected op aux) = false.
Proof.
  apply (mismatch_at_a_position_fails Z.abs Z.eqb id id ex_expected
           ex_swapped 0 ("+_0 -_0", (-3)%Z) ("+_1 -_1", (-2)%Z)
           eq_refl eq_refl).
  left. vm_compute. discriminate.
Defined.

Lemma only_magnitudes_are_compared_witness :
  components_agree Z.abs Z.eqb ex_expected ex_computed
  = components_agree Z.abs Z.eqb ex_expected ex_expected.
Proof.
  apply (only_magnitudes_are_compared Z.abs Z.eqb ex_expected ex_computed
           ex_expected).
  vm_compute. reflexivity.
Defined.
